(** * CreatorOS operations console: compliance and safety record engine

    A shallow embedding of the record-keeping logic of the CreatorOS
    front end (the React pages under [frontend/src/pages]) together with
    the lifecycle operations of the service those pages call.

    The pages are embedded function by function: every definition that
    carries the name of a JavaScript binding follows that binding's body.
    The service side (consent ledger, incident tracker, task board,
    onboarding engine) is not part of the front-end sources; where it is
    needed it is modelled from the specification and marked as such.

    Conventions.
    - JavaScript strings that are compared against literals (statuses,
      filter values, ids) are [string]; free text that goes through
      [String.prototype.trim] is a list of UTF-16 code units.
    - Numbers that hold ratings, scores and instants are [Z].
    - A JavaScript object used as a lookup table or a keyed store is a
      [gmap string _]. *)

From stdpp Require Import base decidable option numbers list strings gmap.
From Stdlib Require Import ZArith Lia.

Local Open Scope Z_scope.
Local Open Scope string_scope.

(** ** JSX fragments

    The pages return [<Badge className=...>children</Badge>] elements.
    Only the class and the children matter here. *)

Module Jsx.

Inductive Child : Type :=
| Text (s : string)
| Num (n : Z).

Record Badge : Type := mkBadge {
  className : string;
  children : list Child
}.

#[global] Instance Child_eq_dec : EqDecision Child.
Proof. solve_decision. Defined.

#[global] Instance Badge_eq_dec : EqDecision Badge.
Proof. solve_decision. Defined.

(** [table[key] || fallback] for a table whose values are non-empty
    class names: a missing key reads [undefined], which is falsy.
    Keys range over the values the API sends; names inherited from
    [Object.prototype] are outside the table. *)
Definition lookup_or (table : gmap string string) (key fallback : string) : string :=
  default fallback (table !! key).

End Jsx.

(** ** Risk and readiness scorer, as the specification words it *)

Module Scorer.

Inductive RiskTier : Type := low | medium | critical.

#[global] Instance RiskTier_eq_dec : EqDecision RiskTier.
Proof. solve_decision. Defined.

(** The specification's tiers: low below 50, medium from 50 to 79,
    critical from 80. *)
Definition personaRiskTier (riskRating : Z) : RiskTier :=
  if decide (riskRating < 50) then low
  else if decide (riskRating <= 79) then medium
  else critical.

(** The tier a rendered badge stands for, read off its class. *)
Definition tier_of_class (cls : string) : option RiskTier :=
  if decide (cls = "badge-danger") then Some critical
  else if decide (cls = "badge-warning") then Some medium
  else if decide (cls = "badge-success") then Some low
  else None.

End Scorer.

(** ** Personas page *)

Module Personas.
Import Jsx.

Record Persona : Type := mkPersona {
  id : string;
  talent_id : string;
  persona_name : string;
  branding_tone : string;
  allowed_platforms : list string;
  pricing_tier : string;
  risk_rating : Z;
  status : string
}.

Definition getRiskBadge (rating : Z) : Badge :=
  if decide (rating >= 80) then mkBadge "badge-danger" [Text "Critical ("; Num rating; Text ")"]
  else if decide (rating >= 50) then mkBadge "badge-warning" [Text "Medium ("; Num rating; Text ")"]
  else mkBadge "badge-success" [Text "Low ("; Num rating; Text ")"].

(** The three risk-summary cards, each
    [personas.filter(p => ...).length]. *)
Definition lowRiskCard (personas : list Persona) : nat :=
  length (filter (λ p, risk_rating p < 50) personas).

Definition mediumRiskCard (personas : list Persona) : nat :=
  length (filter (λ p, risk_rating p >= 50 ∧ risk_rating p < 80) personas).

Definition criticalRiskCard (personas : list Persona) : nat :=
  length (filter (λ p, risk_rating p >= 80) personas).

End Personas.

(** ** Talent detail page: persona risk badge *)

Module TalentDetail.
Import Jsx.

Definition getRiskBadge (rating : Z) : Badge :=
  if decide (rating >= 80) then mkBadge "badge-danger" [Text "Critical Risk"]
  else if decide (rating >= 50) then mkBadge "badge-warning" [Text "Medium Risk"]
  else mkBadge "badge-success" [Text "Low Risk"].

End TalentDetail.

(** ** Talent registry page *)

Module Talents.

Definition getReadinessColor (score : Z) : string :=
  if decide (score >= 80) then "text-emerald-400"
  else if decide (score >= 50) then "text-amber-400"
  else "text-red-400".

End Talents.

(** ** Shared vocabulary of the record engine *)

Module Core.

(** The error taxonomy of the lifecycle operations. *)
Inductive Error : Type :=
| ValidationError
| NotFoundError
| ConflictError
| StorageError.

#[global] Instance Error_eq_dec : EqDecision Error.
Proof. solve_decision. Defined.

(** An append-only audit record. *)
Record AuditEntry : Type := mkAudit {
  entity_kind : string;
  entity_id : string;
  action : string;
  actor : string;
  timestamp : Z
}.

(** What [toast.success] / [toast.error] show. *)
Inductive Toast : Type :=
| toast_success (msg : string)
| toast_error (msg : string).

#[global] Instance Toast_eq_dec : EqDecision Toast.
Proof. solve_decision. Defined.

End Core.

(** ** Consent ledger (service side) *)

Module ConsentLedger.
Import Core.

(** A consent as the API delivers it and the store keeps it. Instants
    ([created_at], [expiry_date]) are points on one time line. *)
Record Consent : Type := mkConsent {
  id : string;
  persona_id : string;
  act_type : string;
  partner_ids : list string;
  distribution_scope : string;
  revocation_rules : string;
  expiry_date : option Z;
  status : string;
  created_at : Z
}.

#[global] Instance Consent_eq_dec : EqDecision Consent.
Proof. solve_decision. Defined.

Record State : Type := mkState {
  consents : gmap string Consent;
  personas : gset string;
  audit : list AuditEntry;
  review_events : list string
}.

(** Modelled from the spec: [effectiveStatus] is not in the front-end
    sources. "If stored status is revoked, return revoked; else if
    expiry is set and now >= expiry, return expired; else return
    active." *)
Definition effectiveStatus (consent : Consent) (now : Z) : string :=
  if decide (status consent = "revoked") then "revoked"
  else match expiry_date consent with
       | Some expiry => if decide (now >= expiry) then "expired" else "active"
       | None => "active"
       end.

(** Modelled from the spec: the service's [list(filterStatus?)],
    "all consents whose effective status matches", in input order;
    no filter returns everything. *)
Definition list_effective (filterStatus : option string) (now : Z)
    (cs : list Consent) : list Consent :=
  match filterStatus with
  | None => cs
  | Some s => filter (λ c, effectiveStatus c now = s) cs
  end.

Definition with_status (s : string) (c : Consent) : Consent :=
  mkConsent (id c) (persona_id c) (act_type c) (partner_ids c) (distribution_scope c)
            (revocation_rules c) (expiry_date c) s (created_at c).

(** Modelled from the spec: [create] is not in the front-end sources.
    It fails with [ValidationError] when the persona is unknown or the
    act type or the revocation rules are empty; the new record is
    [active], keyed by an id the record store has not used, and an
    audit entry [created] is appended. *)
Definition create (personaId actType : string) (partnerIds : list string)
    (scope revocationRules : string) (expiry : option Z)
    (who : string) (now : Z) (st : State) : Error + (Consent * State) :=
  if decide (personaId ∈ personas st ∧ actType ≠ "" ∧ revocationRules ≠ "") then
    let cid := fresh (dom (consents st)) in
    let c := mkConsent cid personaId actType partnerIds scope revocationRules
                       expiry "active" now in
    inr (c, mkState (<[cid := c]> (consents st)) (personas st)
                    (audit st ++ [mkAudit "consent" cid "created" who now])
                    (review_events st))
  else inl ValidationError.

(** Modelled from the spec: [revoke] is not in the front-end sources.
    It fails with [NotFoundError] on an unknown id and with
    [ConflictError] unless the consent is currently active: the
    stored status is the expected prior status of the conditional
    write, and the effective status is the authoritative one. On
    success the status becomes [revoked], an audit entry [revoked] is
    appended and the consent id is published for content review. *)
Definition revoke (consentId who : string) (now : Z) (st : State)
    : Error + (Consent * State) :=
  match consents st !! consentId with
  | None => inl NotFoundError
  | Some c =>
      if decide (status c = "active" ∧ effectiveStatus c now = "active") then
        let c' := with_status "revoked" c in
        inr (c', mkState (<[consentId := c']> (consents st)) (personas st)
                         (audit st ++ [mkAudit "consent" consentId "revoked" who now])
                         (review_events st ++ [consentId]))
      else inl ConflictError
  end.

(** The operations that write to the ledger, and their effect on it;
    a failed operation leaves the ledger as it was. *)
Inductive Op : Type :=
| OpCreate (personaId actType : string) (partnerIds : list string)
           (scope revocationRules : string) (expiry : option Z) (who : string) (now : Z)
| OpRevoke (consentId who : string) (now : Z).

Definition step (st : State) (op : Op) : State :=
  match op with
  | OpCreate p a ps sc rr e who now =>
      match create p a ps sc rr e who now st with
      | inr (_, st') => st'
      | inl _ => st
      end
  | OpRevoke cid who now =>
      match revoke cid who now st with
      | inr (_, st') => st'
      | inl _ => st
      end
  end.

Definition run (ops : list Op) (st : State) : State := foldl step st ops.

End ConsentLedger.

(** ** Consent vault page *)

Module Consents.
Import Jsx Core ConsentLedger.

Definition styles : gmap string string :=
  {[ "active" := "badge-success"; "revoked" := "badge-danger"; "expired" := "badge-warning" ]}.

Definition getStatusBadge (status : string) : Badge :=
  mkBadge (lookup_or styles status (styles !!! "active")) [Text status].

(** [filterStatus] is the value of the status select: ["all"] or a
    status. *)
Definition filteredConsents (filterStatus : string) (consents : list Consent)
    : list Consent :=
  if decide (filterStatus = "all") then consents
  else filter (λ c, status c = filterStatus) consents.

(** The status cell of a table row. *)
Definition statusCell (consent : Consent) : Badge := getStatusBadge (status consent).

(** The guard of the Revoke button of a table row. *)
Definition revokeButtonShown (consent : Consent) : bool :=
  bool_decide (status consent = "active").

(** [handleRevoke]: [confirmed] is the answer to [window.confirm];
    the request is served by the ledger at instant [now] for the
    signed-in actor [who]. *)
Definition handleRevoke (confirmed : bool) (consentId who : string) (now : Z)
    (srv : State) : list Toast * State :=
  if negb confirmed then ([], srv)
  else match revoke consentId who now srv with
       | inr (_, srv') => ([toast_success "Consent revoked"], srv')
       | inl _ => ([toast_error "Failed to revoke consent"], srv)
       end.

End Consents.

(** ** JavaScript text

    Free text is a sequence of UTF-16 code units. [trim] removes the
    ECMAScript WhiteSpace and LineTerminator code points (all of them
    single code units) from both ends. *)

Module Js.

Definition text : Type := list N.

Definition isWhiteSpace (u : N) : bool :=
  bool_decide (u ∈ [9; 10; 11; 12; 13; 32; 160; 5760; 8232; 8233; 8239; 8287; 12288; 65279]%N)
  || ((8192 <=? u)%N && (u <=? 8202)%N).

Fixpoint drop_while (p : N → bool) (s : text) : text :=
  match s with
  | [] => []
  | u :: s' => if p u then drop_while p s' else s
  end.

Definition trimStart (s : text) : text := drop_while isWhiteSpace s.

Definition trimEnd (s : text) : text := reverse (drop_while isWhiteSpace (reverse s)).

Definition trim (s : text) : text := trimEnd (trimStart s).

(** Code units of an ASCII literal. *)
Fixpoint of_string (s : string) : text :=
  match s with
  | EmptyString => []
  | String a s' => Ascii.N_of_ascii a :: of_string s'
  end.

End Js.

(** ** URI components

    [encodeURIComponent] reads its argument by code points and throws
    a [URIError] at a surrogate code unit that is not half of a pair:
    a high surrogate (D800 to DBFF) not followed by a low one (DC00 to
    DFFF), or a low surrogate not preceded by a high one. *)

Module JsUri.

Definition isHighSurrogate (u : N) : bool := ((55296 <=? u) && (u <=? 56319))%N.

Definition isLowSurrogate (u : N) : bool := ((56320 <=? u) && (u <=? 57343))%N.

(** Whether [encodeURIComponent s] returns; [false] is the [URIError]. *)
Fixpoint encodable (s : Js.text) : bool :=
  match s with
  | [] => true
  | u :: s' =>
      if isHighSurrogate u then
        match s' with
        | v :: s'' => isLowSurrogate v && encodable s''
        | [] => false
        end
      else if isLowSurrogate u then false
      else encodable s'
  end.

Definition isPlain (a : Ascii.ascii) : bool :=
  let n := Ascii.N_of_ascii a in
  (((48 <=? n) && (n <=? 57)) || ((65 <=? n) && (n <=? 90)) || ((97 <=? n) && (n <=? 122))
   || (n =? 45) || (n =? 95))%N.

(** An id that a template literal can write into a path as it is: not
    empty, and made of ASCII letters, digits, '-' and '_' only, so that
    the segment neither ends the path nor is rewritten on the way. *)
Definition plainSegment (s : string) : bool :=
  negb (bool_decide (s = "")) && forallb isPlain (String.list_ascii_of_string s).

End JsUri.

(** ** Incident tracker (service side) *)

Module IncidentTracker.
Import Core.

Record Incident : Type := mkIncident {
  id : string;
  incident_type : string;
  severity : string;
  description : Js.text;
  talent_id : option string;
  persona_id : option string;
  status : string;
  resolution_notes : option Js.text;
  created_at : Z;
  resolved_at : option Z
}.

Record State : Type := mkState {
  incidents : gmap string Incident;
  audit : list AuditEntry
}.

(** The closed set of incident statuses. *)
Definition statuses : list string := ["open"; "investigating"; "resolved"; "closed"].

Definition resolved_with (notes : Js.text) (now : Z) (i : Incident) : Incident :=
  mkIncident (id i) (incident_type i) (severity i) (description i) (talent_id i)
             (persona_id i) "resolved" (Some notes) (created_at i) (Some now).

(** Modelled from the spec: [resolve] is not in the front-end sources.
    It fails with [NotFoundError] on an unknown id, with
    [ConflictError] if the status is already [resolved] or [closed],
    and with [ValidationError] if the resolution notes are empty;
    otherwise it sets the status to [resolved], stamps the resolution
    time, keeps the notes and appends the audit entry [resolved]. *)
Definition resolve (incidentId : string) (resolutionNotes : Js.text) (who : string)
    (now : Z) (st : State) : Error + (Incident * State) :=
  match incidents st !! incidentId with
  | None => inl NotFoundError
  | Some i =>
      if decide (status i = "resolved" ∨ status i = "closed") then inl ConflictError
      else if decide (resolutionNotes = []) then inl ValidationError
      else
        let i' := resolved_with resolutionNotes now i in
        inr (i', mkState (<[incidentId := i']> (incidents st))
                         (audit st ++ [mkAudit "incident" incidentId "resolved" who now]))
  end.

End IncidentTracker.

(** ** Task board (service side) *)

Module TaskBoard.
Import Core.

Record Task : Type := mkTask {
  id : string;
  title : string;
  description : string;
  persona_id : option string;
  task_type : string;
  priority : string;
  status : string;
  deadline : option Z
}.

#[global] Instance Task_eq_dec : EqDecision Task.
Proof. solve_decision. Defined.

Record State : Type := mkState {
  tasks : gmap string Task;
  audit : list AuditEntry
}.

(** The closed set of task statuses. *)
Definition statuses : list string := ["pending"; "in_progress"; "completed"; "blocked"].

Definition with_status (s : string) (t : Task) : Task :=
  mkTask (id t) (title t) (description t) (persona_id t) (task_type t) (priority t)
         s (deadline t).

(** Modelled from the spec: [setStatus] is not in the front-end
    sources. It fails with [NotFoundError] on an unknown id, with
    [ValidationError] if the new status is not one of the four
    enumerated values and with [ConflictError] on a transition away
    from [completed]; every other transition is stored, with an audit
    entry. *)
Definition setStatus (taskId newStatus who : string) (now : Z) (st : State)
    : Error + (Task * State) :=
  match tasks st !! taskId with
  | None => inl NotFoundError
  | Some t =>
      if decide (newStatus ∈ statuses) then
        if decide (status t = "completed" ∧ newStatus ≠ "completed") then inl ConflictError
        else
          let t' := with_status newStatus t in
          inr (t', mkState (<[taskId := t']> (tasks st))
                           (audit st ++ [mkAudit "task" taskId "status_changed" who now]))
      else inl ValidationError
  end.

(** A status request, and its effect on the board; a failed request
    leaves the board as it was. *)
Record Request : Type := mkRequest {
  req_task : string;
  req_status : string;
  req_actor : string;
  req_time : Z
}.

Definition step (st : State) (r : Request) : State :=
  match setStatus (req_task r) (req_status r) (req_actor r) (req_time r) st with
  | inr (_, st') => st'
  | inl _ => st
  end.

Definition run (rs : list Request) (st : State) : State := foldl step st rs.

End TaskBoard.

(** ** Tasks page *)

Module Tasks.
Import Jsx Core TaskBoard.

Definition handleStatusUpdate (taskId newStatus who : string) (now : Z) (srv : State)
    : list Toast * State :=
  match setStatus taskId newStatus who now srv with
  | inr (_, srv') => ([toast_success "Task updated"], srv')
  | inl _ => ([toast_error "Failed to update task"], srv)
  end.

Definition filteredTasks (filterStatus : string) (tasks : list Task) : list Task :=
  if decide (filterStatus = "all") then tasks
  else filter (λ t, status t = filterStatus) tasks.

(** [groupedTasks], as a function of the [filteredTasks] it reads:
    an object with the four status keys. *)
Definition groupedTasks (filteredTasks : list Task) : gmap string (list Task) :=
  {[ "pending" := filter (λ t, status t = "pending") filteredTasks;
     "in_progress" := filter (λ t, status t = "in_progress") filteredTasks;
     "completed" := filter (λ t, status t = "completed") filteredTasks;
     "blocked" := filter (λ t, status t = "blocked") filteredTasks ]}.

(** The statuses the buttons of a task card ask for: Start on a
    pending task, Complete on one in progress, Block on either. *)
Definition taskCardActions (task : Task) : list string :=
  (if decide (status task = "pending") then ["in_progress"] else [])
  ++ (if decide (status task = "in_progress") then ["completed"] else [])
  ++ (if decide (status task = "pending" ∨ status task = "in_progress")
      then ["blocked"] else []).

End Tasks.

(** ** Onboarding progress engine (service side) *)

Module OnboardingEngine.
Import Core.

Record Talent : Type := mkTalent {
  id : string;
  display_id : string;
  verification_status : string;
  onboarding_complete : bool;
  readiness_score : Z
}.

Record OnboardingStep : Type := mkStep {
  step_id : string;
  name : string;
  completed : bool;
  completed_at : option Z
}.

#[global] Instance OnboardingStep_eq_dec : EqDecision OnboardingStep.
Proof. solve_decision. Defined.

(** The record the API delivers for a talent. *)
Record OnboardingRecord : Type := mkRecord {
  talent_id : string;
  steps : list OnboardingStep;
  overall_progress : Z
}.

Record State : Type := mkState {
  talents : gmap string Talent;
  onboarding : gmap string (list OnboardingStep);
  audit : list AuditEntry
}.

(** Modelled from the spec: the fixed ordered step sequence it names,
    as ids and names. *)
Definition policy : list (string * string) :=
  [("identity_verification", "Identity verification");
   ("contract_signing", "Contract signing");
   ("persona_setup", "Persona setup");
   ("safety_briefing", "Safety briefing");
   ("platform_access", "Platform access")].

(** A record of the fixed sequence: the policy's steps, in its order. *)
Definition follows_policy (ss : list OnboardingStep) : Prop :=
  step_id <$> ss = fst <$> policy.

Definition completedCount (ss : list OnboardingStep) : Z :=
  Z.of_nat (length (filter (λ s, completed s = true) ss)).

Definition totalSteps (ss : list OnboardingStep) : Z := Z.of_nat (length ss).

(** The integer nearest to [a / b] for [b > 0], halves upwards. *)
Definition round_div (a b : Z) : Z := (2 * a + b) / (2 * b).

(** Modelled from the spec: [progress] is not in the front-end
    sources. "round(100 x completedCount / totalSteps)". *)
Definition progress (ss : list OnboardingStep) : Z :=
  round_div (100 * completedCount ss) (totalSteps ss).

(** The steps of a new record: the policy's, none completed. *)
Definition fresh_steps : list OnboardingStep :=
  (λ p, mkStep p.1 p.2 false None) <$> policy.

(** Modelled from the spec: [initialize] is not in the front-end
    sources. It creates the fixed ordered step set, nothing completed.
    Where that would un-complete a finished step of a record the talent
    already has, it is the [ConflictError] the specification gives to
    such a transition, and writes nothing. *)
Definition initialize (talentId : string) (st : State)
    : Error + (list OnboardingStep * State) :=
  if existsb completed (default [] (onboarding st !! talentId)) then inl ConflictError
  else inr (fresh_steps,
            mkState (talents st) (<[talentId := fresh_steps]> (onboarding st)) (audit st)).

(** Completing the step with a given id in a step sequence: the first
    step of that id is the one addressed. *)
Fixpoint complete_in (stepId : string) (now : Z) (ss : list OnboardingStep)
    : Error + list OnboardingStep :=
  match ss with
  | [] => inl NotFoundError
  | s :: rest =>
      if decide (step_id s = stepId) then
        if completed s then inl ConflictError
        else inr (mkStep (step_id s) (name s) true (Some now) :: rest)
      else match complete_in stepId now rest with
           | inl e => inl e
           | inr rest' => inr (s :: rest')
           end
  end.

Definition all_completed (ss : list OnboardingStep) : bool :=
  forallb completed ss.

Definition mark_onboarded (t : Talent) : Talent :=
  mkTalent (id t) (display_id t) (verification_status t) true (readiness_score t).

(** Modelled from the spec: [completeStep] is not in the front-end
    sources. It fails with [NotFoundError] if the talent or the step is
    unknown and with [ConflictError] if the step is already completed;
    otherwise it sets [completed], stamps the time and appends an audit
    entry, and when this completes the last open step the talent's
    [onboarding_complete] flag is set in the same write. *)
Definition completeStep (talentId stepId who : string) (now : Z) (st : State)
    : Error + (list OnboardingStep * State) :=
  match talents st !! talentId, onboarding st !! talentId with
  | Some t, Some ss =>
      match complete_in stepId now ss with
      | inl e => inl e
      | inr ss' =>
          inr (ss', mkState (if all_completed ss' then <[talentId := mark_onboarded t]> (talents st)
                             else talents st)
                            (<[talentId := ss']> (onboarding st))
                            (audit st ++ [mkAudit "onboarding" talentId "step_completed" who now]))
      end
  | _, _ => inl NotFoundError
  end.

(** Modelled from the spec: the record served for a talent carries the
    steps and their [progress]. *)
Definition get_onboarding (talentId : string) (st : State) : option OnboardingRecord :=
  (λ ss, mkRecord talentId ss (progress ss)) <$> onboarding st !! talentId.

(** The writes of the engine, and their effect on its state; a failed
    write leaves the state as it was. *)
Inductive Op : Type :=
| Initialize (talentId : string)
| CompleteStep (talentId stepId who : string) (now : Z).

Definition step (st : State) (o : Op) : State :=
  match o with
  | Initialize talentId =>
      match initialize talentId st with
      | inr (_, st') => st'
      | inl _ => st
      end
  | CompleteStep talentId stepId who now =>
      match completeStep talentId stepId who now st with
      | inr (_, st') => st'
      | inl _ => st
      end
  end.

Definition run (ops : list Op) (st : State) : State := foldl step st ops.

(** [ss'] is [ss] after some writes: the same steps in the same
    order, no fewer of them completed, and every step that was completed is
    still there, unchanged, at its position. *)
Definition advances (ss ss' : list OnboardingStep) : Prop :=
  step_id <$> ss' = step_id <$> ss ∧
  length ss' = length ss ∧
  completedCount ss <= completedCount ss' ∧
  ∀ i s, ss !! i = Some s → completed s = true → ss' !! i = Some s.

(** Every step that was completed in [ss] is in [ss'], unchanged, at
    its position. *)
Definition keeps_completed (ss ss' : list OnboardingStep) : Prop :=
  ∀ i s, ss !! i = Some s → completed s = true → ss' !! i = Some s.

(** Every talent whose steps are all completed carries the
    [onboarding_complete] flag. *)
Definition flagged (st : State) : Prop :=
  ∀ talentId t ss,
    talents st !! talentId = Some t → onboarding st !! talentId = Some ss →
    all_completed ss = true → onboarding_complete t = true.

End OnboardingEngine.

(** ** Talent detail page: onboarding tab *)

Module TalentOnboarding.
Import Core OnboardingEngine.

(** [onboarding?.overall_progress || 0]. *)
Definition progressShown (onboarding : option OnboardingRecord) : Z :=
  match onboarding with
  | Some o => if decide (overall_progress o = 0) then 0 else overall_progress o
  | None => 0
  end.

(** The guard of the Complete button of a step row. *)
Definition completeButtonShown (s : OnboardingStep) : bool := negb (completed s).

End TalentOnboarding.

(** ** Incidents page *)

Module Incidents.
Import Core IncidentTracker.

(** The page state [fetchData] and [handleResolve] read and write. *)
Record Page : Type := mkPage {
  incidents : list Incident;
  talents : list OnboardingEngine.Talent;
  personas : list Personas.Persona;
  loading : bool;
  resolveDialog_open : bool;
  resolveDialog_id : option string;
  resolutionNotes : Js.text
}.

(** What the three requests of [fetchData] bring back when all of them
    succeed. *)
Record Fetched : Type := mkFetched {
  incidentsRes : list Incident;
  talentsRes : list OnboardingEngine.Talent;
  personasRes : list Personas.Persona
}.

(** [fetchData]: [reply] is [None] when one of the three requests
    fails. Either way [loading] is switched off. *)
Definition fetchData (reply : option Fetched) (pg : Page) : list Toast * Page :=
  match reply with
  | Some r =>
      ([], mkPage (incidentsRes r) (talentsRes r) (personasRes r) false
                  (resolveDialog_open pg) (resolveDialog_id pg) (resolutionNotes pg))
  | None =>
      ([toast_error "Failed to load data"],
       mkPage (incidents pg) (talents pg) (personas pg) false
              (resolveDialog_open pg) (resolveDialog_id pg) (resolutionNotes pg))
  end.

(** The guard of the Resolve button of a table row. *)
Definition resolveButtonShown (incident : Incident) : bool :=
  bool_decide (status incident = "open") || bool_decide (status incident = "investigating").

(** The button's [onClick]: [setResolveDialog({ open: true, id })]. *)
Definition openResolveDialog (incident : Incident) (pg : Page) : Page :=
  mkPage (incidents pg) (talents pg) (personas pg) (loading pg)
         true (Some (id incident)) (resolutionNotes pg).

(** [setResolveDialog({ open: false, id: null }); setResolutionNotes('')]. *)
Definition closeResolveDialog (pg : Page) : Page :=
  mkPage (incidents pg) (talents pg) (personas pg) (loading pg) false None [].

(** [handleResolve]. Blank notes are refused before the [try]. Inside
    it the URL is built first: notes that [encodeURIComponent] cannot
    encode throw there, so nothing is sent and the [catch] shows the
    failure. Otherwise the request carries the notes as typed and is
    served by the tracker at instant [now] for the signed-in actor
    [who]; the id is written into the path as it is, which names the
    incident when the id is a plain segment ([JsUri.plainSegment]), and
    a dialog without an id addresses the resource named "null". After
    a success the dialog is closed, the notes are cleared and
    [fetchData] runs, with its own toast if the reload fails. *)
Definition handleResolve (who : string) (now : Z) (reply : option Fetched)
    (pg : Page) (srv : State) : list Toast * Page * State :=
  if decide (Js.trim (resolutionNotes pg) = []) then
    ([toast_error "Resolution notes are required"], pg, srv)
  else if JsUri.encodable (resolutionNotes pg) then
    match resolve (default "null" (resolveDialog_id pg)) (resolutionNotes pg) who now srv with
    | inr (_, srv') =>
        let '(toasts, pg') := fetchData reply (closeResolveDialog pg) in
        (toast_success "Incident resolved" :: toasts, pg', srv')
    | inl _ => ([toast_error "Failed to resolve incident"], pg, srv)
    end
  else ([toast_error "Failed to resolve incident"], pg, srv).

End Incidents.

(** ** JavaScript string methods

    The string methods the pages call, on code units. *)

Module JsString.
Import Js.

(** [s.split(sep)] for a separator of one code unit: the pieces
    between the separators, at least one piece. *)
Fixpoint split (sep : N) (s : text) : list text :=
  match s with
  | [] => [[]]
  | u :: s' =>
      if decide (u = sep) then [] :: split sep s'
      else match split sep s' with
           | piece :: rest => (u :: piece) :: rest
           | [] => [[u]]
           end
  end.

(** [l.join(sep)]. *)
Fixpoint join (sep : text) (l : list text) : text :=
  match l with
  | [] => []
  | t :: rest =>
      match rest with
      | [] => t
      | _ :: _ => (t ++ sep ++ join sep rest)%list
      end
  end.

(** [s.startsWith(q)]. *)
Fixpoint startsWith (s q : text) : bool :=
  match q, s with
  | [], _ => true
  | _ :: _, [] => false
  | a :: q', b :: s' => bool_decide (a = b) && startsWith s' q'
  end.

(** [s.includes(q)]: [q] occurs in [s] at some position. *)
Fixpoint includes (s q : text) : bool :=
  startsWith s q
  || match s with
     | [] => false
     | _ :: s' => includes s' q
     end.

(** [s.replace(a, b)] for strings [a] and [b] of one code unit: only
    the first occurrence is replaced. *)
Fixpoint replace (a b : N) (s : text) : text :=
  match s with
  | [] => []
  | u :: s' => if decide (u = a) then b :: s' else u :: replace a b s'
  end.

Definition comma : N := 44.
Definition space : N := 32.
Definition underscore : N := 95.

End JsString.

(** ** Form fields and labels shared by the pages *)

Module Forms.
Import Js JsString.

(** [field.split(',').map(s => s.trim()).filter(Boolean)]: the
    comma-separated fields of the consent form ([partner_ids]) and of
    the persona form ([niche_tags], [allowed_platforms],
    [prohibited_acts]). *)
Definition commaList (field : text) : list text :=
  filter (λ s, s ≠ []) (trim <$> split comma field).

(** An entry as [commaList] leaves it: non-empty, no white space at
    either end, no comma. *)
Definition clean (t : text) : Prop := t ≠ [] ∧ trim t = t ∧ comma ∉ t.

(** [value?.replace('_', ' ')], the label of an enumerated value. *)
Definition spacedLabel (value : text) : text := replace underscore space value.

End Forms.

(** ** Talent detail page: persona cards *)

Module PersonaCard.
Import Js JsString.

(** [persona.allowed_platforms.join(', ') || 'None specified']. *)
Definition platformsLine (allowed_platforms : list text) : text :=
  let joined := join [comma; space] allowed_platforms in
  if decide (joined = []) then of_string "None specified" else joined.

End PersonaCard.

(** ** Personas page: platform badges and name lookup *)

Module PersonaTable.
Import Jsx Personas.

(** The platforms cell of a row: a badge for each of the first two
    platforms, then a [+N] badge when there are more. *)
Definition platformBadges (allowed_platforms : list string) : list Badge :=
  ((λ p, mkBadge "text-xs" [Text p]) <$> take 2 allowed_platforms)
  ++ (if decide (2 < length allowed_platforms)%nat
      then [mkBadge "text-xs" [Text "+"; Num (Z.of_nat (length allowed_platforms) - 2)]]
      else []).

(** [getPersonaName] of the Consents and Revenue pages:
    [personas.find(p => p.id === personaId)], then
    [persona?.persona_name || 'Unknown']. *)
Definition getPersonaName (personas : list Persona) (personaId : string) : string :=
  match list_find (λ p, id p = personaId) personas with
  | Some (_, persona) =>
      if decide (persona_name persona = "") then "Unknown" else persona_name persona
  | None => "Unknown"
  end.

(** [getPersonaName] of the Tasks page: [null] without a persona id,
    otherwise the name of the persona found, [undefined] if none is.
    [None] stands for both [null] and [undefined]. *)
Definition getTaskPersonaName (personas : list Persona) (personaId : option string)
    : option string :=
  match personaId with
  | None => None
  | Some pid =>
      if decide (pid = "") then None
      else (λ found, persona_name found.2) <$> list_find (λ p, id p = pid) personas
  end.

(** The guard of the persona badge of a task card:
    [getPersonaName(task.persona_id) && ...]. *)
Definition personaBadgeShown (personas : list Persona) (task : TaskBoard.Task) : bool :=
  match getTaskPersonaName personas (TaskBoard.persona_id task) with
  | Some name => negb (bool_decide (name = ""))
  | None => false
  end.

End PersonaTable.

(** ** Tasks page: the columns of the board *)

Module Board.
Import TaskBoard Tasks.

Definition pendingCards (grouped : gmap string (list Task)) : list Task :=
  grouped !!! "pending".

Definition inProgressCards (grouped : gmap string (list Task)) : list Task :=
  grouped !!! "in_progress".

(** [groupedTasks.completed.slice(0, 5)]. *)
Definition completedCards (grouped : gmap string (list Task)) : list Task :=
  take 5 (grouped !!! "completed").

Definition blockedCards (grouped : gmap string (list Task)) : list Task :=
  grouped !!! "blocked".

(** The count badge of a column: [groupedTasks.<key>.length]. *)
Definition columnCount (key : string) (grouped : gmap string (list Task)) : nat :=
  length (grouped !!! key).

End Board.

(** ** Property names every object inherits

    A lookup [table[key]] also finds what [Object.prototype] provides;
    for these keys it does not give [undefined]. *)

Module JsObject.

Definition inherited : list string :=
  ["constructor"; "__proto__"; "hasOwnProperty"; "isPrototypeOf";
   "propertyIsEnumerable"; "toLocaleString"; "toString"; "valueOf";
   "__defineGetter__"; "__defineSetter__"; "__lookupGetter__"; "__lookupSetter__"].

End JsObject.

(** ** Dashboard page: alerts *)

Module Dashboard.
Import Jsx.

Definition styles : gmap string string :=
  {[ "critical" := "badge-danger"; "high" := "badge-danger";
     "medium" := "badge-warning"; "low" := "badge-info" ]}.

Definition getSeverityBadge (severity : string) : Badge :=
  mkBadge (lookup_or styles severity (styles !!! "low")) [Text severity].

(** The tint of the icon box of an alert row. *)
Definition alertTint (severity : string) : string :=
  if decide (severity = "critical" ∨ severity = "high") then "bg-red-500/20 text-red-400"
  else if decide (severity = "medium") then "bg-amber-500/20 text-amber-400"
  else "bg-blue-500/20 text-blue-400".

End Dashboard.

(** ** Layout: sidebar *)

Module Layout.

Record NavItem : Type := mkNavItem {
  path : string;
  label : string
}.

Definition navItems : list NavItem :=
  [mkNavItem "/" "Dashboard"; mkNavItem "/talents" "Talents";
   mkNavItem "/personas" "Personas"; mkNavItem "/consents" "Consents";
   mkNavItem "/revenue" "Revenue"; mkNavItem "/incidents" "Incidents";
   mkNavItem "/tasks" "Tasks"].

(** [isActive] of [NavLink]: [location.pathname === item.path]. *)
Definition isActive (pathname : string) (item : NavItem) : bool :=
  bool_decide (pathname = path item).

Definition roleLabels : gmap string string :=
  {[ "owner" := "Owner"; "ops_director" := "Ops Director";
     "talent_manager" := "Talent Manager"; "marketing_ops" := "Marketing Ops";
     "finance" := "Finance"; "safety_support" := "Safety & Support" ]}.

(** [roleLabels[user?.role] || user?.role]. *)
Definition roleShown (role : string) : string := Jsx.lookup_or roleLabels role role.

End Layout.

(** ** Login page: the roles of the registration form *)

Module Login.

Definition roles : list (string * string) :=
  [("owner", "Owner / Principal"); ("ops_director", "Ops Director");
   ("talent_manager", "Talent Manager"); ("marketing_ops", "Marketing Ops");
   ("finance", "Finance"); ("safety_support", "Safety / Support")].

End Login.

(** ** App: routes and their guards *)

Module App.

(** The route a location matched. *)
Inductive Route : Type :=
| RLogin
| RDashboard
| RTalents
| RTalentDetail
| RPersonas
| RConsents
| RRevenue
| RIncidents
| RTasks.

#[global] Instance Route_eq_dec : EqDecision Route.
Proof. solve_decision. Defined.

(** What a route renders: the spinner, a redirect, the login page, or
    a page inside the layout. *)
Inductive View : Type :=
| Spinner
| Navigate (to : string)
| LoginPage
| InLayout (page : Route).

#[global] Instance View_eq_dec : EqDecision View.
Proof. solve_decision. Defined.

(** [ProtectedRoute]: [user] is [true] when a user is signed in. *)
Definition ProtectedRoute (loading user : bool) (children : Route) : View :=
  if loading then Spinner
  else if negb user then Navigate "/login"
  else InLayout children.

(** [AppRoutes], at the route that matched. *)
Definition AppRoutes (loading user : bool) (route : Route) : View :=
  if loading then Spinner
  else match route with
       | RLogin => if user then Navigate "/" else LoginPage
       | page => ProtectedRoute loading user page
       end.

(** The routes the two redirects of the app lead to: ["/login"] and
    ["/"] are paths of the route table. *)
Definition redirected (to : string) : option Route :=
  if decide (to = "/login") then Some RLogin
  else if decide (to = "/") then Some RDashboard
  else None.

(** Rendering a route and following a redirect once. *)
Definition settle (loading user : bool) (route : Route) : View :=
  match AppRoutes loading user route with
  | Navigate to =>
      match redirected to with
      | Some next => AppRoutes loading user next
      | None => Navigate to
      end
  | view => view
  end.

End App.

(** ** Search boxes of the Talents and Personas pages

    [toLowerCase] follows the Unicode case mappings, which are not
    spelled out here: the filters take it as an argument. *)

Module Search.
Import Js JsString.

(** [talents.filter(t => t.display_id.toLowerCase()
    .includes(searchQuery.toLowerCase()))], for rows of any type with
    their [display_id]. *)
Definition filteredTalents {A : Type} (toLowerCase : text → text) (display_id : A → text)
    (searchQuery : text) (talents : list A) : list A :=
  filter (λ t, includes (toLowerCase (display_id t)) (toLowerCase searchQuery) = true) talents.

(** [personas.filter(p => p.persona_name.toLowerCase().includes(q) ||
    p.branding_tone.toLowerCase().includes(q))] with
    [q = searchQuery.toLowerCase()]. *)
Definition filteredPersonas {A : Type} (toLowerCase : text → text)
    (persona_name branding_tone : A → text) (searchQuery : text) (personas : list A)
    : list A :=
  filter (λ p, includes (toLowerCase (persona_name p)) (toLowerCase searchQuery)
               || includes (toLowerCase (branding_tone p)) (toLowerCase searchQuery) = true)
         personas.

End Search.

(** ** Sample records *)

Module Samples.
Import Core.

(** A consent stored as [active] whose expiry (instant 10) has passed
    by instant 20. *)
Definition lapsed_consent : ConsentLedger.Consent :=
  ConsentLedger.mkConsent "consent-1" "persona-1" "photo_shoot" [] "platform_only"
                          "written notice" (Some 10) "active" 0.

Definition open_consent : ConsentLedger.Consent :=
  ConsentLedger.mkConsent "consent-2" "persona-1" "interview" [] "multi_platform"
                          "written notice" None "active" 0.

Definition ledger_of (cs : list ConsentLedger.Consent) : ConsentLedger.State :=
  ConsentLedger.mkState (list_to_map ((λ c, (ConsentLedger.id c, c)) <$> cs))
                        {[ "persona-1" ]} [] [].

(** A critical incident, still open. *)
Definition open_incident : IncidentTracker.Incident :=
  IncidentTracker.mkIncident "incident-1" "boundary_violation" "critical"
                             (Js.of_string "reported on set") None (Some "persona-1")
                             "open" None 0 None.

Definition tracker_of (i : IncidentTracker.Incident) : IncidentTracker.State :=
  IncidentTracker.mkState {[ IncidentTracker.id i := i ]} [].

(** The resolve dialog opened on an incident, with notes typed in. *)
Definition dialog_on (i : IncidentTracker.Incident) (notes : Js.text) : Incidents.Page :=
  Incidents.mkPage [i] [] [] false true (Some (IncidentTracker.id i)) notes.

Definition task_with (tid status : string) : TaskBoard.Task :=
  TaskBoard.mkTask tid "Edit reel" "" None "content" "medium" status None.

Definition board_of (ts : list TaskBoard.Task) : TaskBoard.State :=
  TaskBoard.mkState (list_to_map ((λ t, (TaskBoard.id t, t)) <$> ts)) [].

Definition mixed_tasks : list TaskBoard.Task :=
  [task_with "t1" "pending"; task_with "t2" "completed"; task_with "t3" "pending";
   task_with "t4" "blocked"; task_with "t5" "in_progress"].

Definition done_step (sid : string) : OnboardingEngine.OnboardingStep :=
  OnboardingEngine.mkStep sid sid true (Some 1).

Definition todo_step (sid : string) : OnboardingEngine.OnboardingStep :=
  OnboardingEngine.mkStep sid sid false None.

(** Five steps, three of them completed. *)
Definition three_of_five : list OnboardingEngine.OnboardingStep :=
  [done_step "identity_verification"; done_step "contract_signing";
   done_step "persona_setup"; todo_step "safety_briefing"; todo_step "platform_access"].

(** Lower case of the letters A to Z, every other code unit kept. *)
Definition asciiLower (s : Js.text) : Js.text :=
  (λ u, if ((65 <=? u) && (u <=? 90))%N then (u + 32)%N else u) <$> s.

Definition engine_of (tid : string) (ss : list OnboardingEngine.OnboardingStep)
    : OnboardingEngine.State :=
  OnboardingEngine.mkState
    {[ tid := OnboardingEngine.mkTalent tid "T-001" "verified" false 0 ]}
    {[ tid := ss ]} [].

(** An engine that knows the talent [tid] and holds no record yet. *)
Definition engine_before (tid : string) : OnboardingEngine.State :=
  OnboardingEngine.mkState
    {[ tid := OnboardingEngine.mkTalent tid "T-001" "verified" false 0 ]}
    ∅ [].

End Samples.

(** * Properties *)

(** ** Risk tiers *)

Section RiskTiers.
Import Jsx Scorer.

Lemma personas_badge_tier (rating : Z) :
  tier_of_class (className (Personas.getRiskBadge rating)) = Some (personaRiskTier rating).
Proof.
  unfold Personas.getRiskBadge, personaRiskTier.
  repeat case_decide; try lia; reflexivity.
Qed.

Lemma talent_detail_badge_tier (rating : Z) :
  tier_of_class (className (TalentDetail.getRiskBadge rating)) = Some (personaRiskTier rating).
Proof.
  unfold TalentDetail.getRiskBadge, personaRiskTier.
  repeat case_decide; try lia; reflexivity.
Qed.

End RiskTiers.

Section RiskClassification.
Import Jsx Scorer.

(** C8. Every integer rating, so in particular every rating in 0-100,
    is tiered low below 50, medium from 50 to 79 and critical from 80
    on, and the three places that classify a persona's risk (the
    badge of the Personas page, the badge of the talent detail page
    and the risk-summary cards) draw the same tier. *)
Theorem persona_risk_tier_thresholds (rating : Z) :
  (rating < 50 →
     personaRiskTier rating = low ∧
     Personas.getRiskBadge rating
       = mkBadge "badge-success" [Text "Low ("; Num rating; Text ")"] ∧
     TalentDetail.getRiskBadge rating = mkBadge "badge-success" [Text "Low Risk"]) ∧
  (50 <= rating <= 79 →
     personaRiskTier rating = medium ∧
     Personas.getRiskBadge rating
       = mkBadge "badge-warning" [Text "Medium ("; Num rating; Text ")"] ∧
     TalentDetail.getRiskBadge rating = mkBadge "badge-warning" [Text "Medium Risk"]) ∧
  (80 <= rating →
     personaRiskTier rating = critical ∧
     Personas.getRiskBadge rating
       = mkBadge "badge-danger" [Text "Critical ("; Num rating; Text ")"] ∧
     TalentDetail.getRiskBadge rating = mkBadge "badge-danger" [Text "Critical Risk"]) ∧
  tier_of_class (className (Personas.getRiskBadge rating)) = Some (personaRiskTier rating) ∧
  tier_of_class (className (TalentDetail.getRiskBadge rating)) = Some (personaRiskTier rating) ∧
  (∀ p, Personas.risk_rating p = rating →
     (Personas.lowRiskCard [p] = 1%nat ↔ personaRiskTier rating = low) ∧
     (Personas.mediumRiskCard [p] = 1%nat ↔ personaRiskTier rating = medium) ∧
     (Personas.criticalRiskCard [p] = 1%nat ↔ personaRiskTier rating = critical)).
Proof.
  split; [|split; [|split; [|split; [|split]]]].
  - intros Hlow. unfold personaRiskTier, Personas.getRiskBadge, TalentDetail.getRiskBadge.
    repeat case_decide; try lia. auto.
  - intros Hmed. unfold personaRiskTier, Personas.getRiskBadge, TalentDetail.getRiskBadge.
    repeat case_decide; try lia. auto.
  - intros Hcrit. unfold personaRiskTier, Personas.getRiskBadge, TalentDetail.getRiskBadge.
    repeat case_decide; try lia. auto.
  - apply personas_badge_tier.
  - apply talent_detail_badge_tier.
  - intros p <-.
    unfold Personas.lowRiskCard, Personas.mediumRiskCard, Personas.criticalRiskCard.
    rewrite !filter_cons, !filter_nil. unfold personaRiskTier.
    repeat case_decide; simpl; repeat split; intros; try lia; try discriminate; try reflexivity.
Qed.

(** One persona is counted by exactly one card. *)
Lemma one_card_per_persona (p : Personas.Persona) :
  (Personas.lowRiskCard [p] + Personas.mediumRiskCard [p] + Personas.criticalRiskCard [p] = 1)%nat.
Proof.
  unfold Personas.lowRiskCard, Personas.mediumRiskCard, Personas.criticalRiskCard.
  rewrite !filter_cons, !filter_nil.
  repeat case_decide; simpl; lia.
Qed.

Lemma cards_cons (p : Personas.Persona) (ps : list Personas.Persona) :
  (Personas.lowRiskCard (p :: ps) = Personas.lowRiskCard [p] + Personas.lowRiskCard ps)%nat ∧
  (Personas.mediumRiskCard (p :: ps)
     = Personas.mediumRiskCard [p] + Personas.mediumRiskCard ps)%nat ∧
  (Personas.criticalRiskCard (p :: ps)
     = Personas.criticalRiskCard [p] + Personas.criticalRiskCard ps)%nat.
Proof.
  unfold Personas.lowRiskCard, Personas.mediumRiskCard, Personas.criticalRiskCard.
  rewrite !filter_cons, !filter_nil.
  repeat case_decide; simpl; repeat split; reflexivity.
Qed.

(** C9. The three risk-summary counts partition the personas: each
    persona is counted by exactly one card, the three filtered lists
    together are a rearrangement of the input, and the counts add up
    to the number of personas. *)
Theorem risk_summary_cards_partition (personas : list Personas.Persona) :
  (∀ p, (Personas.lowRiskCard [p] + Personas.mediumRiskCard [p]
         + Personas.criticalRiskCard [p] = 1)%nat) ∧
  filter (λ p, Personas.risk_rating p < 50) personas
    ++ filter (λ p, Personas.risk_rating p >= 50 ∧ Personas.risk_rating p < 80) personas
    ++ filter (λ p, Personas.risk_rating p >= 80) personas ≡ₚ personas ∧
  (Personas.lowRiskCard personas + Personas.mediumRiskCard personas
   + Personas.criticalRiskCard personas = length personas)%nat.
Proof.
  split; [apply one_card_per_persona|]. split.
  - induction personas as [|p ps IH]; [reflexivity|].
    rewrite !filter_cons.
    repeat case_decide; try lia; simpl.
    + by rewrite IH.
    + rewrite <- Permutation_middle. by rewrite IH.
    + rewrite app_assoc, <- Permutation_middle, <- app_assoc. by rewrite IH.
  - induction personas as [|p ps IH]; [reflexivity|].
    destruct (cards_cons p ps) as (-> & -> & ->).
    pose proof (one_card_per_persona p). simpl length. lia.
Qed.

(** C10. The registry colours a readiness score emerald from 80 on,
    amber from 50 up to but not including 80, and red below 50: the
    bands of the persona risk tiers, reused for readiness. *)
Theorem readiness_color_thresholds (score : Z) :
  (score >= 80 → Talents.getReadinessColor score = "text-emerald-400") ∧
  (score >= 50 ∧ score < 80 → Talents.getReadinessColor score = "text-amber-400") ∧
  (score < 50 → Talents.getReadinessColor score = "text-red-400") ∧
  (Talents.getReadinessColor score = "text-emerald-400" ↔ personaRiskTier score = critical) ∧
  (Talents.getReadinessColor score = "text-amber-400" ↔ personaRiskTier score = medium) ∧
  (Talents.getReadinessColor score = "text-red-400" ↔ personaRiskTier score = low).
Proof.
  unfold Talents.getReadinessColor, personaRiskTier.
  repeat case_decide; repeat split; intros; try lia; try discriminate; try reflexivity.
Qed.

End RiskClassification.

(** ** Consents *)

Section ConsentReads.
Import Jsx Core ConsentLedger Consents.

Lemma effectiveStatus_cases (c : Consent) (now : Z) :
  (status c = "revoked" → effectiveStatus c now = "revoked") ∧
  (status c ≠ "revoked" → (∃ e, expiry_date c = Some e ∧ now >= e) →
     effectiveStatus c now = "expired") ∧
  (status c ≠ "revoked" → (∀ e, expiry_date c = Some e → now < e) →
     effectiveStatus c now = "active").
Proof.
  unfold effectiveStatus. repeat split.
  - intros Hr. by rewrite decide_True.
  - intros Hr (e & -> & He). rewrite decide_False by done. by rewrite decide_True.
  - intros Hr He. rewrite decide_False by done.
    destruct (expiry_date c) as [e|]; [|done].
    specialize (He e eq_refl). rewrite decide_False by lia. done.
Qed.

Lemma effectiveStatus_values (c : Consent) (now : Z) :
  effectiveStatus c now = "revoked" ∨ effectiveStatus c now = "expired"
  ∨ effectiveStatus c now = "active".
Proof.
  unfold effectiveStatus. case_decide; [auto|].
  destruct (expiry_date c); [case_decide|]; auto.
Qed.

Lemma filter_fresh_status (s : string) (now : Z) (cs : list Consent) :
  Forall (λ c, status c = effectiveStatus c now) cs →
  filter (λ c, status c = s) cs = filter (λ c, effectiveStatus c now = s) cs.
Proof.
  induction 1 as [|c cs Hc _ IH]; [done|].
  rewrite !filter_cons, IH.
  repeat case_decide; congruence.
Qed.

(** C1, as the code has it. [effectiveStatus] is the three-way
    function of the stored status, the expiry and the current
    instant. The consent vault page does not apply it: its list
    filter keeps, in input order, exactly the consents whose delivered
    [status] field equals the selected value, and its status cell
    prints that field. The two readings agree on every list whose
    delivered statuses are the effective ones. *)
Theorem consent_reads_use_delivered_status
    (consents : list Consent) (filterStatus : string) (now : Z) :
  (∀ c, (status c = "revoked" → effectiveStatus c now = "revoked") ∧
        (status c ≠ "revoked" → (∃ e, expiry_date c = Some e ∧ now >= e) →
           effectiveStatus c now = "expired") ∧
        (status c ≠ "revoked" → (∀ e, expiry_date c = Some e → now < e) →
           effectiveStatus c now = "active")) ∧
  (∀ c, c ∈ filteredConsents filterStatus consents
        ↔ c ∈ consents ∧ (filterStatus = "all" ∨ status c = filterStatus)) ∧
  filteredConsents filterStatus consents `sublist_of` consents ∧
  (∀ c, children (statusCell c) = [Text (status c)]) ∧
  (Forall (λ c, status c = effectiveStatus c now) consents →
   filterStatus ≠ "all" →
   filteredConsents filterStatus consents
     = list_effective (Some filterStatus) now consents).
Proof.
  split; [intros c; apply effectiveStatus_cases|].
  split; [|split; [|split]].
  - intros c. unfold filteredConsents. case_decide.
    + tauto.
    + rewrite list_elem_of_filter. tauto.
  - unfold filteredConsents. case_decide; [done|]. apply sublist_filter.
  - done.
  - intros Hfresh Hne. unfold filteredConsents, list_effective.
    rewrite decide_False by done. by apply filter_fresh_status.
Qed.

(** C1 as stated does not hold of the page: a consent delivered as
    [active] with a lapsed expiry is [expired] by [effectiveStatus],
    yet the page lists it under "active", not under "expired", prints
    "active" in its status cell and offers the Revoke button. *)
Lemma consent_reads_ignore_expiry :
  effectiveStatus Samples.lapsed_consent 20 = "expired" ∧
  list_effective (Some "expired") 20 [Samples.lapsed_consent] = [Samples.lapsed_consent] ∧
  filteredConsents "expired" [Samples.lapsed_consent] = [] ∧
  filteredConsents "active" [Samples.lapsed_consent] = [Samples.lapsed_consent] ∧
  statusCell Samples.lapsed_consent = mkBadge "badge-success" [Text "active"] ∧
  revokeButtonShown Samples.lapsed_consent = true ∧
  ¬ (∀ (cs : list Consent) (filterStatus : string) (now : Z),
       filterStatus ≠ "all" →
       filteredConsents filterStatus cs = list_effective (Some filterStatus) now cs).
Proof.
  repeat split; try by vm_compute.
  intros Hall.
  specialize (Hall [Samples.lapsed_consent] "expired" 20 ltac:(discriminate)).
  vm_compute in Hall. discriminate.
Qed.

End ConsentReads.

Section ConsentRevocation.
Import Core ConsentLedger.

Lemma revoke_conflict (st : State) (consentId who : string) (now : Z) (c : Consent) :
  consents st !! consentId = Some c →
  status c ≠ "active" ∨ effectiveStatus c now ≠ "active" →
  revoke consentId who now st = inl ConflictError.
Proof.
  intros Hc Hna. unfold revoke. rewrite Hc.
  rewrite decide_False; [done|]. intros [? ?]. by destruct Hna.
Qed.

Lemma revoke_active (st : State) (consentId who : string) (now : Z) (c : Consent) :
  consents st !! consentId = Some c →
  status c = "active" → effectiveStatus c now = "active" →
  ∃ st', revoke consentId who now st = inr (with_status "revoked" c, st') ∧
         consents st' = <[consentId := with_status "revoked" c]> (consents st).
Proof.
  intros Hc Hs He. unfold revoke. rewrite Hc, decide_True by done.
  eexists. split; reflexivity.
Qed.

Lemma effectiveStatus_revoked (c : Consent) (now : Z) :
  status c = "revoked" → effectiveStatus c now = "revoked".
Proof. intros Hr. unfold effectiveStatus. by rewrite decide_True. Qed.

(** No write to the ledger touches a revoked consent. *)
Lemma step_keeps_revoked (st : State) (op : Op) (cid : string) (c : Consent) :
  consents st !! cid = Some c → status c = "revoked" →
  consents (step st op) !! cid = Some c.
Proof.
  intros Hc Hr. destruct op as [p a ps sc rr e who now | cid' who now]; simpl.
  - unfold create. case_decide; [|done]. simpl.
    rewrite lookup_insert_ne; [done|].
    intros Heq. pose proof (is_fresh (dom (consents st))) as Hfresh.
    rewrite Heq in Hfresh. apply Hfresh, elem_of_dom. by eexists.
  - destruct (decide (cid' = cid)) as [->|Hne].
    + rewrite (revoke_conflict st cid who now c); [done..|].
      left. rewrite Hr. discriminate.
    + unfold revoke. destruct (consents st !! cid') as [c'|]; [|done].
      case_decide; [|done]. simpl. by rewrite lookup_insert_ne.
Qed.

Lemma run_keeps_revoked (ops : list Op) (st : State) (cid : string) (c : Consent) :
  consents st !! cid = Some c → status c = "revoked" →
  consents (run ops st) !! cid = Some c.
Proof.
  revert st. induction ops as [|op ops IH]; intros st Hc Hr; [done|].
  simpl. apply IH; [|done]. by apply step_keeps_revoked.
Qed.

(** C2. A consent that is not currently active cannot be revoked:
    [revoke] answers [ConflictError] when the stored status is not
    [active] (already revoked, so never twice) and when the consent
    has lapsed although it is still stored as [active]. A successful
    revoke stores [revoked], and from then on no sequence of ledger
    writes changes the record, its effective status is [revoked] at
    every instant, and every further revoke is a [ConflictError]. *)
Theorem revoke_only_active (st : State) (consentId who : string) (now : Z) (c : Consent) :
  consents st !! consentId = Some c →
  (status c ≠ "active" ∨ effectiveStatus c now ≠ "active" →
     revoke consentId who now st = inl ConflictError) ∧
  (status c = "active" → (∃ e, expiry_date c = Some e ∧ now >= e) →
     effectiveStatus c now = "expired" ∧ revoke consentId who now st = inl ConflictError) ∧
  (status c = "active" → effectiveStatus c now = "active" →
     ∃ st', revoke consentId who now st = inr (with_status "revoked" c, st') ∧
            status (with_status "revoked" c) = "revoked" ∧
            ∀ ops who' now',
              consents (run ops st') !! consentId = Some (with_status "revoked" c) ∧
              effectiveStatus (with_status "revoked" c) now' = "revoked" ∧
              revoke consentId who' now' (run ops st') = inl ConflictError).
Proof.
  intros Hc. split; [|split].
  - by apply revoke_conflict.
  - intros Hs Hexp.
    assert (effectiveStatus c now = "expired") as He.
    { apply effectiveStatus_cases; [|done]. rewrite Hs. discriminate. }
    split; [done|]. apply (revoke_conflict st consentId who now c Hc).
    right. rewrite He. discriminate.
  - intros Hs He.
    destruct (revoke_active st consentId who now c Hc Hs He) as (st' & Hrev & Hst').
    exists st'. split; [done|]. split; [done|].
    intros ops who' now'.
    assert (consents (run ops st') !! consentId = Some (with_status "revoked" c)) as Hkept.
    { apply run_keeps_revoked; [|done]. rewrite Hst'. apply lookup_insert_eq. }
    split; [done|]. split; [by apply effectiveStatus_revoked|].
    apply (revoke_conflict _ consentId who' now' _ Hkept).
    left. simpl. discriminate.
Qed.

Lemma revoke_only_active_witness :
  consents (Samples.ledger_of [Samples.open_consent]) !! "consent-2"
    = Some Samples.open_consent ∧
  ∃ st', revoke "consent-2" "ops" 20 (Samples.ledger_of [Samples.open_consent])
           = inr (with_status "revoked" Samples.open_consent, st') ∧
         revoke "consent-2" "ops" 21 st' = inl ConflictError.
Proof.
  split; [reflexivity|].
  destruct (revoke_only_active (Samples.ledger_of [Samples.open_consent])
              "consent-2" "ops" 20 Samples.open_consent eq_refl) as (_ & _ & Hok).
  destruct (Hok eq_refl eq_refl) as (st' & Hrev & _ & Hperm).
  exists st'. split; [exact Hrev|].
  exact (proj2 (proj2 (Hperm [] "ops" 21))).
Defined.

(** The page's Revoke button is drawn for a lapsed consent that is
    still delivered as [active]; pressing it and confirming yields the
    failure toast and leaves the ledger unchanged. *)
Lemma handleRevoke_lapsed (srv : State) (who : string) (now : Z) (c : Consent) :
  consents srv !! id c = Some c →
  status c = "active" → (∃ e, expiry_date c = Some e ∧ now >= e) →
  Consents.revokeButtonShown c = true ∧
  Consents.handleRevoke true (id c) who now srv
    = ([toast_error "Failed to revoke consent"], srv).
Proof.
  intros Hc Hs Hexp. split.
  - unfold Consents.revokeButtonShown. by rewrite bool_decide_eq_true.
  - unfold Consents.handleRevoke. simpl.
    rewrite (revoke_conflict srv (id c) who now c Hc); [done|].
    right. destruct (effectiveStatus_cases c now) as (_ & Hlapsed & _).
    rewrite Hlapsed; [discriminate| |done]. rewrite Hs. discriminate.
Qed.

End ConsentRevocation.

(** ** Incidents *)

Section TextTrim.
Import Js.

Lemma drop_while_nil_iff (p : N → bool) (s : text) :
  drop_while p s = [] ↔ Forall (λ u, p u = true) s.
Proof.
  induction s as [|u s IH]; simpl; [by split|].
  destruct (p u) eqn:Hu.
  - rewrite IH. split; [by constructor|]. by inversion 1.
  - split; [done|]. inversion 1; congruence.
Qed.

Lemma drop_while_head (p : N → bool) (s : text) (u : N) (t : text) :
  drop_while p s = u :: t → p u = false.
Proof.
  induction s as [|v s IH]; simpl; [done|].
  destruct (p v) eqn:Hv; [done|]. by intros [= <- _].
Qed.

(** Text is blank to [trim] exactly when it is white space only. *)
Lemma trim_nil_iff (s : text) :
  trim s = [] ↔ Forall (λ u, isWhiteSpace u = true) s.
Proof.
  unfold trim, trimEnd, trimStart. rewrite <- drop_while_nil_iff.
  split.
  - intros H%(f_equal reverse). rewrite reverse_involutive in H. simpl in H.
    apply drop_while_nil_iff in H. rewrite Forall_reverse in H.
    destruct (drop_while isWhiteSpace s) as [|u t] eqn:Hd; [done|].
    apply drop_while_head in Hd. apply Forall_cons in H as [Hu _]. congruence.
  - by intros ->.
Qed.

Lemma trim_nonblank_nonempty (s : text) : trim s ≠ [] → s ≠ [].
Proof. by intros H ->. Qed.

End TextTrim.

Section IncidentResolution.
Import Core IncidentTracker.

Lemma status_cases (i : Incident) :
  status i ∈ statuses →
  status i = "open" ∨ status i = "investigating" ∨ status i = "resolved" ∨ status i = "closed".
Proof. intros H%list_elem_of_In. simpl in H. intuition. Qed.

Lemma resolve_succeeds_iff (st : State) (who : string) (now : Z) (i : Incident)
    (notes : Js.text) :
  incidents st !! id i = Some i → status i ∈ statuses →
  resolve (id i) notes who now st
    = inr (resolved_with notes now i,
           mkState (<[id i := resolved_with notes now i]> (incidents st))
                   (audit st ++ [mkAudit "incident" (id i) "resolved" who now]))
  ↔ (status i = "open" ∨ status i = "investigating") ∧ notes ≠ [].
Proof.
  intros Hi Hst. unfold resolve. rewrite Hi.
  destruct (status_cases i Hst) as [Hs|[Hs|[Hs|Hs]]]; rewrite Hs;
    repeat case_decide; split; intros; try done; try (intuition congruence);
    try (intuition discriminate).
Qed.

Lemma resolve_failures (st : State) (who : string) (now : Z) (i : Incident)
    (notes : Js.text) :
  incidents st !! id i = Some i →
  (status i = "resolved" ∨ status i = "closed" →
     resolve (id i) notes who now st = inl ConflictError) ∧
  (status i = "open" ∨ status i = "investigating" → notes = [] →
     resolve (id i) notes who now st = inl ValidationError).
Proof.
  intros Hi. unfold resolve. rewrite Hi. split.
  - intros Hs. by rewrite decide_True.
  - intros Hs ->. rewrite decide_False; [done|].
    intros [Hr|Hr]; destruct Hs as [Hs|Hs]; rewrite Hs in Hr; discriminate.
Qed.

Lemma handleResolve_blank (srv : State) (who : string) (now : Z)
    (reply : option Incidents.Fetched) (pg : Incidents.Page) :
  Js.trim (Incidents.resolutionNotes pg) = [] →
  Incidents.handleResolve who now reply pg srv
  = ([toast_error "Resolution notes are required"], pg, srv).
Proof. intros Hb. unfold Incidents.handleResolve. by rewrite decide_True. Qed.

Lemma handleResolve_unencodable (srv : State) (who : string) (now : Z)
    (reply : option Incidents.Fetched) (pg : Incidents.Page) :
  Js.trim (Incidents.resolutionNotes pg) ≠ [] →
  JsUri.encodable (Incidents.resolutionNotes pg) = false →
  Incidents.handleResolve who now reply pg srv
  = ([toast_error "Failed to resolve incident"], pg, srv).
Proof.
  intros Hnb Henc. unfold Incidents.handleResolve.
  rewrite decide_False by done. by rewrite Henc.
Qed.

Lemma handleResolve_sent (srv : State) (who : string) (now : Z)
    (reply : option Incidents.Fetched) (i : Incident) (pg : Incidents.Page) :
  Incidents.resolveDialog_id pg = Some (id i) →
  Js.trim (Incidents.resolutionNotes pg) ≠ [] →
  JsUri.encodable (Incidents.resolutionNotes pg) = true →
  Incidents.handleResolve who now reply pg srv
  = match resolve (id i) (Incidents.resolutionNotes pg) who now srv with
    | inr (_, srv') =>
        (toast_success "Incident resolved"
           :: (Incidents.fetchData reply (Incidents.closeResolveDialog pg)).1,
         (Incidents.fetchData reply (Incidents.closeResolveDialog pg)).2, srv')
    | inl _ => ([toast_error "Failed to resolve incident"], pg, srv)
    end.
Proof.
  intros Hid Hnb Henc. unfold Incidents.handleResolve.
  rewrite decide_False by done. rewrite Henc, Hid. simpl.
  destruct (resolve _ _ _ _ _) as [e|[i' srv']]; [done|].
  by destruct (Incidents.fetchData _ _).
Qed.

(** C3, as the code has it. With the resolve dialog open on an
    incident whose id is a plain path segment, resolving through the
    page succeeds exactly when the incident is [open] or
    [investigating] and the notes are not blank, that is, not empty
    once white space is trimmed from both ends, and can be encoded
    into the request, that is, hold no unpaired surrogate. The
    incident is then stored as [resolved] with the resolution time,
    the notes and an audit entry, the dialog is closed and the notes
    are cleared; the page reloads its lists, and a failed reload adds
    its own error toast after the success toast. Blank notes are
    refused by the page as a validation failure, and notes that cannot
    be encoded as a failed resolution, before anything is sent. The
    tracker answers [ConflictError] for a [resolved] or [closed]
    incident and [ValidationError] for empty notes on an [open] or
    [investigating] one; the page shows either as a failed resolution
    and changes nothing. *)
Theorem resolve_needs_open_incident_and_nonblank_notes
    (srv : State) (who : string) (now : Z) (reply : option Incidents.Fetched)
    (i : Incident) (pg : Incidents.Page) :
  incidents srv !! id i = Some i →
  status i ∈ statuses →
  JsUri.plainSegment (id i) = true →
  Incidents.resolveDialog_id pg = Some (id i) →
  (toast_success "Incident resolved" ∈ (Incidents.handleResolve who now reply pg srv).1.1
   ↔ (status i = "open" ∨ status i = "investigating") ∧
     Js.trim (Incidents.resolutionNotes pg) ≠ [] ∧
     JsUri.encodable (Incidents.resolutionNotes pg) = true) ∧
  ((status i = "open" ∨ status i = "investigating") →
   Js.trim (Incidents.resolutionNotes pg) ≠ [] →
   JsUri.encodable (Incidents.resolutionNotes pg) = true →
     (Incidents.handleResolve who now reply pg srv).2
     = mkState (<[id i := resolved_with (Incidents.resolutionNotes pg) now i]> (incidents srv))
               (audit srv ++ [mkAudit "incident" (id i) "resolved" who now]) ∧
     status (resolved_with (Incidents.resolutionNotes pg) now i) = "resolved" ∧
     resolved_at (resolved_with (Incidents.resolutionNotes pg) now i) = Some now ∧
     resolution_notes (resolved_with (Incidents.resolutionNotes pg) now i)
       = Some (Incidents.resolutionNotes pg) ∧
     (∀ r, reply = Some r →
        (Incidents.handleResolve who now reply pg srv).1
        = ([toast_success "Incident resolved"],
           Incidents.mkPage (Incidents.incidentsRes r) (Incidents.talentsRes r)
                            (Incidents.personasRes r) false false None [])) ∧
     (reply = None →
        (Incidents.handleResolve who now reply pg srv).1
        = ([toast_success "Incident resolved"; toast_error "Failed to load data"],
           Incidents.mkPage (Incidents.incidents pg) (Incidents.talents pg)
                            (Incidents.personas pg) false false None []))) ∧
  (Js.trim (Incidents.resolutionNotes pg) = [] →
     Incidents.handleResolve who now reply pg srv
     = ([toast_error "Resolution notes are required"], pg, srv)) ∧
  (Js.trim (Incidents.resolutionNotes pg) ≠ [] →
   JsUri.encodable (Incidents.resolutionNotes pg) = false →
     Incidents.handleResolve who now reply pg srv
     = ([toast_error "Failed to resolve incident"], pg, srv)) ∧
  (status i = "resolved" ∨ status i = "closed" →
     resolve (id i) (Incidents.resolutionNotes pg) who now srv = inl ConflictError ∧
     (Js.trim (Incidents.resolutionNotes pg) ≠ [] →
        Incidents.handleResolve who now reply pg srv
        = ([toast_error "Failed to resolve incident"], pg, srv))) ∧
  (status i = "open" ∨ status i = "investigating" → Incidents.resolutionNotes pg = [] →
     resolve (id i) (Incidents.resolutionNotes pg) who now srv = inl ValidationError).
Proof.
  intros Hi Hst _ Hid. set (notes := Incidents.resolutionNotes pg).
  pose proof (resolve_failures srv who now i notes Hi) as [Hconflict Hvalid].
  pose proof (resolve_succeeds_iff srv who now i notes Hi Hst) as Hiff.
  assert ((status i = "open" ∨ status i = "investigating") → Js.trim notes ≠ [] →
          JsUri.encodable notes = true →
          Incidents.handleResolve who now reply pg srv
          = (toast_success "Incident resolved"
               :: (Incidents.fetchData reply (Incidents.closeResolveDialog pg)).1,
             (Incidents.fetchData reply (Incidents.closeResolveDialog pg)).2,
             mkState (<[id i := resolved_with notes now i]> (incidents srv))
                     (audit srv ++ [mkAudit "incident" (id i) "resolved" who now])))
    as Hok.
  { intros Hs Hnb Henc. rewrite (handleResolve_sent srv who now reply i pg) by done.
    fold notes. destruct Hiff as [_ ->]; [done|]. split; [done|].
    by apply trim_nonblank_nonempty. }
  assert (Js.trim notes ≠ [] →
          status i = "resolved" ∨ status i = "closed" ∨ JsUri.encodable notes = false →
          Incidents.handleResolve who now reply pg srv
          = ([toast_error "Failed to resolve incident"], pg, srv)) as Hko.
  { intros Hnb Hs. destruct (JsUri.encodable notes) eqn:Henc.
    - rewrite (handleResolve_sent srv who now reply i pg) by done. fold notes.
      rewrite Hconflict; [done|]. destruct Hs as [Hs|[Hs|Hs]]; [by left|by right|done].
    - by apply handleResolve_unencodable. }
  split; [|split; [|split; [|split; [|split]]]].
  - split.
    + intros Htoast.
      destruct (decide (Js.trim notes = [])) as [Hb|Hnb].
      { rewrite handleResolve_blank in Htoast by done.
        apply list_elem_of_singleton in Htoast. discriminate. }
      destruct (JsUri.encodable notes) eqn:Henc.
      2: { rewrite Hko in Htoast by auto.
           apply list_elem_of_singleton in Htoast. discriminate. }
      split; [|done].
      destruct (status_cases i Hst) as [Hs|[Hs|[Hs|Hs]]]; [by left|by right|..];
        rewrite Hko in Htoast by auto;
        apply list_elem_of_singleton in Htoast; discriminate.
    + intros (Hs & Hnb & Henc). rewrite Hok by done. simpl. left.
  - intros Hs Hnb Henc. rewrite Hok by done. simpl.
    split; [done|]. split; [done|]. split; [done|]. split; [done|]. split.
    + by intros r ->.
    + by intros ->.
  - intros Hb. by apply handleResolve_blank.
  - intros Hnb Henc. apply Hko; auto.
  - intros Hs. split; [by apply Hconflict|]. intros Hnb. apply Hko; [done|].
    destruct Hs; auto.
  - done.
Qed.

Lemma resolve_needs_open_incident_and_nonblank_notes_witness :
  incidents (Samples.tracker_of Samples.open_incident) !! id Samples.open_incident
    = Some Samples.open_incident ∧
  status Samples.open_incident ∈ statuses ∧
  JsUri.plainSegment (id Samples.open_incident) = true ∧
  toast_success "Incident resolved"
    ∈ (Incidents.handleResolve "ops" 5 None
         (Samples.dialog_on Samples.open_incident (Js.of_string "patched"))
         (Samples.tracker_of Samples.open_incident)).1.1.
Proof.
  assert (status Samples.open_incident ∈ statuses) as Hs by (by vm_compute; left).
  split; [reflexivity|]. split; [exact Hs|]. split; [reflexivity|].
  destruct (resolve_needs_open_incident_and_nonblank_notes
              (Samples.tracker_of Samples.open_incident) "ops" 5 None Samples.open_incident
              (Samples.dialog_on Samples.open_incident (Js.of_string "patched"))
              eq_refl Hs eq_refl eq_refl) as [[_ Hsucc] _].
  apply Hsucc. split; [by left|]. split; [by vm_compute|reflexivity].
Defined.

(** C3 as stated does not hold of the page: on an open incident,
    notes of a single space are not empty, yet the page refuses them
    with the validation message and sends nothing, so the incident is
    not resolved. *)
Lemma resolve_refuses_blank_notes :
  status Samples.open_incident = "open" ∧
  ([32%N] : Js.text) ≠ [] ∧
  Incidents.handleResolve "ops" 5 None (Samples.dialog_on Samples.open_incident [32%N])
                          (Samples.tracker_of Samples.open_incident)
    = ([toast_error "Resolution notes are required"],
       Samples.dialog_on Samples.open_incident [32%N],
       Samples.tracker_of Samples.open_incident) ∧
  ¬ (∀ (srv : State) (who : string) (now : Z) (reply : option Incidents.Fetched)
       (i : Incident) (pg : Incidents.Page),
       incidents srv !! id i = Some i → status i ∈ statuses →
       JsUri.plainSegment (id i) = true →
       Incidents.resolveDialog_id pg = Some (id i) →
       (toast_success "Incident resolved"
          ∈ (Incidents.handleResolve who now reply pg srv).1.1
        ↔ (status i = "open" ∨ status i = "investigating") ∧
          Incidents.resolutionNotes pg ≠ [])).
Proof.
  split; [reflexivity|]. split; [discriminate|]. split; [reflexivity|].
  intros Hall.
  assert (status Samples.open_incident ∈ statuses) as Hs by (by vm_compute; left).
  destruct (Hall (Samples.tracker_of Samples.open_incident) "ops" 5 None
                 Samples.open_incident (Samples.dialog_on Samples.open_incident [32%N])
                 eq_refl Hs eq_refl eq_refl) as [_ Hsucc].
  assert (toast_success "Incident resolved" ∈ [toast_error "Resolution notes are required"])
    as Hin.
  { apply Hsucc. split; [by left|discriminate]. }
  apply list_elem_of_singleton in Hin. discriminate.
Qed.

(** Notes that hold a lone surrogate are not blank, yet the URL
    cannot be built from them: on an open incident the page shows the
    failed resolution, sends nothing and keeps dialog and notes. *)
Example resolve_fails_on_lone_surrogate :
  Js.trim [55296%N] ≠ [] ∧
  JsUri.encodable [55296%N] = false ∧
  JsUri.encodable [55357%N; 56832%N] = true ∧
  Incidents.handleResolve "ops" 5 None (Samples.dialog_on Samples.open_incident [55296%N])
                          (Samples.tracker_of Samples.open_incident)
    = ([toast_error "Failed to resolve incident"],
       Samples.dialog_on Samples.open_incident [55296%N],
       Samples.tracker_of Samples.open_incident).
Proof. split; [by vm_compute|]. by repeat split. Qed.

End IncidentResolution.


(** ** Tasks *)

Section TaskStatus.
Import Core TaskBoard.

Lemma setStatus_conflict (st : State) (taskId newStatus who : string) (now : Z) (t : Task) :
  tasks st !! taskId = Some t → newStatus ∈ statuses →
  status t = "completed" → newStatus ≠ "completed" →
  setStatus taskId newStatus who now st = inl ConflictError.
Proof.
  intros Ht Hnew Hs Hne. unfold setStatus. rewrite Ht.
  rewrite decide_True by done. by rewrite decide_True.
Qed.

Lemma setStatus_permitted (st : State) (taskId newStatus who : string) (now : Z) (t : Task) :
  tasks st !! taskId = Some t → newStatus ∈ statuses →
  status t ≠ "completed" ∨ newStatus = "completed" →
  setStatus taskId newStatus who now st
  = inr (with_status newStatus t,
         mkState (<[taskId := with_status newStatus t]> (tasks st))
                 (audit st ++ [mkAudit "task" taskId "status_changed" who now])).
Proof.
  intros Ht Hnew Hok. unfold setStatus. rewrite Ht.
  rewrite decide_True by done. rewrite decide_False; [done|].
  intros [? ?]. by destruct Hok.
Qed.

(** A completed task stays completed under every status request. *)
Lemma step_keeps_completed (st : State) (r : Request) (taskId : string) (t : Task) :
  tasks st !! taskId = Some t → status t = "completed" →
  ∃ t', tasks (step st r) !! taskId = Some t' ∧ status t' = "completed".
Proof.
  intros Ht Hs. unfold step, setStatus.
  destruct (tasks st !! req_task r) as [u|] eqn:Hu; [|by eauto].
  case_decide; [|by eauto]. case_decide; [by eauto|]. simpl.
  destruct (decide (req_task r = taskId)) as [Heq|Hne].
  - rewrite Heq, lookup_insert_eq. eexists; split; [done|]. simpl.
    rewrite Heq, Ht in Hu. injection Hu as <-.
    destruct (decide (req_status r = "completed")) as [->|Hn]; [done|].
    exfalso. auto.
  - rewrite lookup_insert_ne by done. eauto.
Qed.

Lemma run_keeps_completed (rs : list Request) (st : State) (taskId : string) (t : Task) :
  tasks st !! taskId = Some t → status t = "completed" →
  ∃ t', tasks (run rs st) !! taskId = Some t' ∧ status t' = "completed".
Proof.
  revert st t. induction rs as [|r rs IH]; intros st t Ht Hs; [by eauto|].
  simpl. destruct (step_keeps_completed st r taskId t Ht Hs) as (t' & Ht' & Hs').
  by apply (IH _ t').
Qed.

(** C4. For a stored task and any of the four statuses as the new
    one, [setStatus] stores the new status whenever the task is not
    completed, whatever its current status; a request that would move a
    completed task to another status is a [ConflictError]; and a
    completed task is still completed after any sequence of status
    requests. *)
Theorem setStatus_completed_is_terminal
    (st : State) (taskId newStatus who : string) (now : Z) (t : Task) :
  tasks st !! taskId = Some t →
  newStatus ∈ statuses →
  (status t ≠ "completed" →
     ∃ st', setStatus taskId newStatus who now st = inr (with_status newStatus t, st') ∧
            tasks st' !! taskId = Some (with_status newStatus t) ∧
            status (with_status newStatus t) = newStatus) ∧
  (status t = "completed" → newStatus ≠ "completed" →
     setStatus taskId newStatus who now st = inl ConflictError) ∧
  (status t = "completed" →
     ∀ rs, ∃ t', tasks (run rs st) !! taskId = Some t' ∧ status t' = "completed").
Proof.
  intros Ht Hnew. split; [|split].
  - intros Hs. eexists. split; [apply setStatus_permitted; auto|].
    simpl. by rewrite lookup_insert_eq.
  - intros Hs Hne. by apply setStatus_conflict with t.
  - intros Hs rs. by apply run_keeps_completed with t.
Qed.

Lemma setStatus_completed_is_terminal_witness :
  tasks (Samples.board_of Samples.mixed_tasks) !! "t2" = Some (Samples.task_with "t2" "completed") ∧
  "blocked" ∈ statuses ∧
  setStatus "t2" "blocked" "ops" 7 (Samples.board_of Samples.mixed_tasks) = inl ConflictError.
Proof.
  assert ("blocked" ∈ statuses) as Hnew by (by vm_compute; do 3 right; left).
  split; [reflexivity|]. split; [exact Hnew|].
  destruct (setStatus_completed_is_terminal (Samples.board_of Samples.mixed_tasks)
              "t2" "blocked" "ops" 7 (Samples.task_with "t2" "completed") eq_refl Hnew)
    as (_ & Hconflict & _).
  apply Hconflict; [reflexivity|discriminate].
Defined.

(** The buttons of a task card ask only for transitions the board
    permits: none is drawn on a completed task, and each request from
    another task with a listed status succeeds. *)
Lemma taskCardActions_permitted (srv : State) (who : string) (now : Z) (t : Task) :
  tasks srv !! id t = Some t →
  (status t = "completed" → Tasks.taskCardActions t = []) ∧
  ∀ newStatus, newStatus ∈ Tasks.taskCardActions t →
    (Tasks.handleStatusUpdate (id t) newStatus who now srv).1 = [toast_success "Task updated"].
Proof.
  intros Ht. unfold Tasks.taskCardActions. split.
  - intros ->. by repeat (rewrite decide_False by (intuition discriminate)).
  - intros newStatus Hin.
    assert (status t ≠ "completed" ∧ newStatus ∈ statuses) as [Hs Hnew].
    { repeat case_decide; apply list_elem_of_In in Hin; simpl in Hin;
        (split; [intros Hc; rewrite Hc in *; intuition discriminate|]);
        apply list_elem_of_In; simpl; intuition. }
    unfold Tasks.handleStatusUpdate.
    by rewrite (setStatus_permitted srv (id t) newStatus who now t) by auto.
Qed.

End TaskStatus.

Section TaskGroups.
Import TaskBoard Tasks.

Lemma groupedTasks_lookup (ts : list Task) (k : string) :
  k ∈ statuses → groupedTasks ts !! k = Some (filter (λ t, status t = k) ts).
Proof.
  intros Hk%list_elem_of_In. simpl in Hk.
  destruct Hk as [<-|[<-|[<-|[<-|[]]]]]; reflexivity.
Qed.

Lemma groupedTasks_keys (ts : list Task) (k : string) :
  is_Some (groupedTasks ts !! k) ↔ k ∈ statuses.
Proof.
  split.
  - intros [g Hg]. destruct (decide (k ∈ statuses)) as [|Hout]; [done|]. exfalso.
    unfold groupedTasks in Hg.
    rewrite !lookup_insert_ne, lookup_singleton_ne in Hg; [done|..];
      intros <-; apply Hout, list_elem_of_In; simpl; tauto.
  - intros Hk. rewrite groupedTasks_lookup by done. by eexists.
Qed.

(** The four columns, concatenated, rearrange a list of tasks that all
    carry one of the four statuses. *)
Lemma columns_permutation (ts : list Task) :
  Forall (λ t, status t ∈ statuses) ts →
  filter (λ t, status t = "pending") ts
    ++ filter (λ t, status t = "in_progress") ts
    ++ filter (λ t, status t = "completed") ts
    ++ filter (λ t, status t = "blocked") ts ≡ₚ ts.
Proof.
  induction 1 as [|t ts Ht _ IH]; [done|].
  apply list_elem_of_In in Ht. simpl in Ht.
  rewrite !filter_cons.
  destruct Ht as [Hs|[Hs|[Hs|[Hs|[]]]]]; repeat case_decide; try (exfalso; congruence);
    simpl.
  - simpl. by rewrite IH.
  - rewrite <- Permutation_middle. by rewrite IH.
  - rewrite !app_assoc, <- Permutation_middle, <- !app_assoc. by rewrite IH.
  - rewrite !app_assoc, <- Permutation_middle, <- !app_assoc. by rewrite IH.
Qed.

(** C5. [groupedTasks] has exactly the four status keys. The group
    under a key holds, in input order, exactly the tasks of that
    status, so a task is in the group keyed by its own status and in no
    other; and when every task carries one of the four statuses the
    groups together are a rearrangement of the input: nothing is lost
    and nothing is listed twice. *)
Theorem groupedTasks_partition (tasks : list Task) :
  Forall (λ t, status t ∈ statuses) tasks →
  (∀ k, is_Some (groupedTasks tasks !! k) ↔ k ∈ statuses) ∧
  (∀ k g, groupedTasks tasks !! k = Some g →
     g `sublist_of` tasks ∧ ∀ t, t ∈ g ↔ t ∈ tasks ∧ status t = k) ∧
  (∀ t, t ∈ tasks →
     ∃ g, groupedTasks tasks !! status t = Some g ∧ t ∈ g ∧
          ∀ k g', groupedTasks tasks !! k = Some g' → t ∈ g' → k = status t) ∧
  (groupedTasks tasks !!! "pending") ++ (groupedTasks tasks !!! "in_progress")
    ++ (groupedTasks tasks !!! "completed") ++ (groupedTasks tasks !!! "blocked")
    ≡ₚ tasks.
Proof.
  intros Hvalid.
  assert (∀ k g, groupedTasks tasks !! k = Some g →
            g `sublist_of` tasks ∧ ∀ t, t ∈ g ↔ t ∈ tasks ∧ status t = k) as Hgroup.
  { intros k g Hg.
    assert (k ∈ statuses) as Hk by (eapply groupedTasks_keys; by eexists).
    rewrite groupedTasks_lookup in Hg by done. injection Hg as <-.
    split; [apply sublist_filter|].
    intros t. rewrite list_elem_of_filter. tauto. }
  split; [apply groupedTasks_keys|]. split; [exact Hgroup|]. split.
  - intros t Ht.
    assert (status t ∈ statuses) as Hk by (by eapply Forall_forall in Hvalid).
    eexists. split; [by apply groupedTasks_lookup|].
    split; [by apply list_elem_of_filter|].
    intros k g' Hg' Hin. apply (Hgroup k g' Hg') in Hin as [_ Hs]. done.
  - by apply columns_permutation.
Qed.

Lemma groupedTasks_partition_witness :
  Forall (λ t, status t ∈ statuses) Samples.mixed_tasks ∧
  groupedTasks Samples.mixed_tasks !! "pending"
    = Some [Samples.task_with "t1" "pending"; Samples.task_with "t3" "pending"] ∧
  (groupedTasks Samples.mixed_tasks !!! "pending")
    ++ (groupedTasks Samples.mixed_tasks !!! "in_progress")
    ++ (groupedTasks Samples.mixed_tasks !!! "completed")
    ++ (groupedTasks Samples.mixed_tasks !!! "blocked") ≡ₚ Samples.mixed_tasks.
Proof.
  assert (Forall (λ t, status t ∈ statuses) Samples.mixed_tasks) as Hvalid.
  { repeat constructor. }
  split; [exact Hvalid|]. split; [reflexivity|].
  exact (proj2 (proj2 (proj2 (groupedTasks_partition Samples.mixed_tasks Hvalid)))).
Defined.

(** The board of the page groups what the status filter lets through:
    its columns partition the filtered tasks. *)
Lemma board_partition (filterStatus : string) (tasks : list Task) :
  Forall (λ t, status t ∈ statuses) tasks →
  filteredTasks filterStatus tasks `sublist_of` tasks ∧
  (groupedTasks (filteredTasks filterStatus tasks) !!! "pending")
    ++ (groupedTasks (filteredTasks filterStatus tasks) !!! "in_progress")
    ++ (groupedTasks (filteredTasks filterStatus tasks) !!! "completed")
    ++ (groupedTasks (filteredTasks filterStatus tasks) !!! "blocked")
    ≡ₚ filteredTasks filterStatus tasks.
Proof.
  intros Hvalid.
  assert (filteredTasks filterStatus tasks `sublist_of` tasks) as Hsub.
  { unfold filteredTasks. case_decide; [done|apply sublist_filter]. }
  split; [done|]. apply columns_permutation.
  rewrite Forall_forall in Hvalid. apply Forall_forall. intros t Ht. apply Hvalid.
  unfold filteredTasks in Ht. case_decide; [done|].
  by apply list_elem_of_filter in Ht as [_ ?].
Qed.

(** A task whose status is none of the four lands in no group. *)
Lemma groupedTasks_drops_unlisted (t : Task) (k : string) (g : list Task) :
  status t ∉ statuses → groupedTasks [t] !! k = Some g → g = [].
Proof.
  intros Hout Hg.
  assert (k ∈ statuses) as Hk by (eapply groupedTasks_keys; by eexists).
  rewrite groupedTasks_lookup in Hg by done. injection Hg as <-.
  rewrite filter_cons, filter_nil. rewrite decide_False; [done|].
  intros Heq. apply Hout. by rewrite Heq.
Qed.

End TaskGroups.

(** ** Onboarding *)

Section OnboardingProgress.
Import Core OnboardingEngine.

Lemma completedCount_cons (s : OnboardingStep) (ss : list OnboardingStep) :
  completedCount (s :: ss) = (if completed s then 1 else 0) + completedCount ss.
Proof.
  unfold completedCount. rewrite filter_cons.
  destruct (completed s); case_decide; try done; cbn [length]; lia.
Qed.

Lemma completedCount_bounds (ss : list OnboardingStep) :
  0 <= completedCount ss <= totalSteps ss.
Proof.
  unfold completedCount, totalSteps.
  pose proof (length_filter (λ s, completed s = true) ss). lia.
Qed.

Lemma completedCount_total_iff (ss : list OnboardingStep) :
  completedCount ss = totalSteps ss ↔ all_completed ss = true.
Proof.
  induction ss as [|s ss IH]; [done|].
  rewrite completedCount_cons. unfold totalSteps, all_completed in *.
  cbn [length forallb]. pose proof (completedCount_bounds ss) as Hb.
  unfold totalSteps in Hb.
  destruct (completed s); simpl andb.
  - rewrite <- IH. lia.
  - split; [lia|done].
Qed.

(** [round_div] is the nearest integer, halves upwards. *)
Lemma round_div_nearest (a b : Z) :
  0 < b → 2 * b * round_div a b - b <= 2 * a < 2 * b * round_div a b + b.
Proof.
  intros Hb. unfold round_div.
  pose proof (Z.div_mod (2 * a + b) (2 * b) ltac:(lia)).
  pose proof (Z.mod_pos_bound (2 * a + b) (2 * b) ltac:(lia)).
  lia.
Qed.

Lemma round_div_mono (a a' b : Z) : 0 <= b → a <= a' → round_div a b <= round_div a' b.
Proof.
  intros Hb Ha. unfold round_div.
  destruct (decide (b = 0)) as [->|Hne].
  - by rewrite !Z.div_0_r.
  - apply Z.div_le_mono; lia.
Qed.

Lemma progress_mono (ss ss' : list OnboardingStep) :
  length ss' = length ss → completedCount ss <= completedCount ss' →
  progress ss <= progress ss'.
Proof.
  intros Hlen Hc. unfold progress, totalSteps. rewrite Hlen.
  apply round_div_mono; lia.
Qed.

Lemma progress_range (ss : list OnboardingStep) : 0 <= progress ss <= 100.
Proof.
  unfold progress, round_div. pose proof (completedCount_bounds ss) as Hb.
  destruct (decide (totalSteps ss = 0)) as [->|Hne].
  - rewrite Z.div_0_r. lia.
  - assert (0 < totalSteps ss) by (unfold totalSteps in *; lia). split.
    + apply Z.div_pos; lia.
    + enough ((2 * (100 * completedCount ss) + totalSteps ss) / (2 * totalSteps ss) < 101)
        by lia.
      apply Z.div_lt_upper_bound; lia.
Qed.

Lemma progress_100_iff (ss : list OnboardingStep) :
  (0 < length ss < 200)%nat →
  progress ss = 100 ↔ all_completed ss = true.
Proof.
  intros Hn. rewrite <- completedCount_total_iff.
  pose proof (completedCount_bounds ss) as Hb.
  assert (0 < totalSteps ss < 200) as Ht by (unfold totalSteps; lia).
  pose proof (round_div_nearest (100 * completedCount ss) (totalSteps ss) ltac:(lia)) as Hr.
  fold (progress ss) in Hr. split.
  - intros H100. rewrite H100 in Hr. lia.
  - intros Hall. rewrite Hall in Hr. nia.
Qed.

(** A record of the fixed sequence has the policy's five steps, and
    its progress is the exact share: one fifth is twenty points. *)
Lemma follows_policy_length (ss : list OnboardingStep) :
  follows_policy ss → length ss = 5%nat.
Proof. intros H%(f_equal length). by rewrite length_fmap in H. Qed.

Lemma follows_policy_progress (ss : list OnboardingStep) :
  follows_policy ss → progress ss = 20 * completedCount ss.
Proof.
  intros Hlen%follows_policy_length. unfold progress, round_div, totalSteps.
  rewrite Hlen. pose proof (completedCount_bounds ss).
  symmetry. apply Z.div_unique with 5; lia.
Qed.

Lemma follows_policy_ids_NoDup (ss : list OnboardingStep) :
  follows_policy ss → NoDup (step_id <$> ss).
Proof. intros ->. apply (bool_decide_unpack _). by vm_compute. Qed.

End OnboardingProgress.

Section OnboardingSteps.
Import Core OnboardingEngine.

(** [complete_in] addresses the first step of the given id and rewrites
    that position only. *)
Lemma complete_in_spec (stepId : string) (now : Z) (ss : list OnboardingStep) :
  complete_in stepId now ss
  = match list_find (λ x, step_id x = stepId) ss with
    | None => inl NotFoundError
    | Some (i, s) =>
        if completed s then inl ConflictError
        else inr (<[i := mkStep (step_id s) (name s) true (Some now)]> ss)
    end.
Proof.
  induction ss as [|x ss IH]; [done|].
  cbn [complete_in list_find]. case_decide; [done|].
  rewrite IH. destruct (list_find _ ss) as [[i s]|]; [|done].
  simpl. by destruct (completed s).
Qed.

Lemma advances_refl (ss : list OnboardingStep) : advances ss ss.
Proof. unfold advances. split; [done|]. split; [done|]. split; [lia|auto]. Qed.

Lemma advances_trans (ss1 ss2 ss3 : list OnboardingStep) :
  advances ss1 ss2 → advances ss2 ss3 → advances ss1 ss3.
Proof.
  intros (Hi1 & Hl1 & Hc1 & Hk1) (Hi2 & Hl2 & Hc2 & Hk2).
  split; [congruence|]. split; [congruence|]. split; [lia|].
  intros i s Hi Hs. apply Hk2; [|done]. by apply Hk1.
Qed.

Lemma complete_in_advances (stepId : string) (now : Z) (ss ss' : list OnboardingStep) :
  complete_in stepId now ss = inr ss' →
  advances ss ss' ∧ completedCount ss' = completedCount ss + 1.
Proof.
  revert ss'. induction ss as [|x ss IH]; intros ss'; [done|].
  cbn [complete_in]. case_decide.
  - destruct (completed x) eqn:Hx; [done|]. intros [= <-].
    rewrite !completedCount_cons, Hx. cbn [completed].
    split; [|lia]. split; [done|]. split; [done|].
    split; [rewrite !completedCount_cons, Hx; cbn; lia|].
    intros [|i] s Hi Hs; [|done]. simpl in Hi. injection Hi as ->. congruence.
  - destruct (complete_in stepId now ss) as [e|rest'] eqn:Hrest; [done|]. intros [= <-].
    destruct (IH rest' eq_refl) as ((Hid & Hl & Hc & Hk) & Hcount).
    rewrite !completedCount_cons. split; [|lia].
    split; [cbn [fmap list_fmap]; by f_equal|].
    split; [cbn [length]; congruence|]. split; [rewrite !completedCount_cons; lia|].
    intros [|i] s Hi Hs; [done|]. by apply Hk.
Qed.

Lemma advances_progress (ss ss' : list OnboardingStep) :
  advances ss ss' → progress ss <= progress ss'.
Proof. intros (_ & Hl & Hc & _). by apply progress_mono. Qed.

Lemma advances_follows_policy (ss ss' : list OnboardingStep) :
  advances ss ss' → follows_policy ss → follows_policy ss'.
Proof. intros (Hid & _) Hp. unfold follows_policy in *. congruence. Qed.

Lemma completeStep_ok (talentId stepId who : string) (now : Z) (st st' : State)
    (ss' : list OnboardingStep) :
  completeStep talentId stepId who now st = inr (ss', st') →
  ∃ t ss, talents st !! talentId = Some t ∧ onboarding st !! talentId = Some ss ∧
          complete_in stepId now ss = inr ss' ∧
          onboarding st' = <[talentId := ss']> (onboarding st) ∧
          talents st' = (if all_completed ss' then <[talentId := mark_onboarded t]> (talents st)
                         else talents st).
Proof.
  unfold completeStep.
  destruct (talents st !! talentId) as [t|]; [|done].
  destruct (onboarding st !! talentId) as [ss|]; [|done].
  destruct (complete_in stepId now ss) as [e|ss0] eqn:Hc; [done|].
  intros [= <- <-]. by exists t, ss.
Qed.

(** [initialize] writes only where no step of the talent is completed. *)
Lemma initialize_ok (talentId : string) (st st' : State) (ss' : list OnboardingStep) :
  initialize talentId st = inr (ss', st') →
  (∀ ss, onboarding st !! talentId = Some ss → existsb completed ss = false) ∧
  ss' = fresh_steps ∧
  onboarding st' = <[talentId := fresh_steps]> (onboarding st) ∧
  talents st' = talents st.
Proof.
  unfold initialize.
  destruct (existsb completed (default [] (onboarding st !! talentId))) eqn:Hex; [done|].
  intros [= <- <-]. split; [|done]. intros ss Hss. by rewrite Hss in Hex.
Qed.

Lemma existsb_completed (ss : list OnboardingStep) (i : nat) (s : OnboardingStep) :
  ss !! i = Some s → completed s = true → existsb completed ss = true.
Proof.
  intros Hi Hs. apply existsb_exists. exists s. split; [|done].
  apply list_elem_of_In. by apply list_elem_of_lookup_2 with i.
Qed.

Lemma initialize_completed (talentId : string) (st : State) (ss : list OnboardingStep)
    (i : nat) (s : OnboardingStep) :
  onboarding st !! talentId = Some ss → ss !! i = Some s → completed s = true →
  initialize talentId st = inl ConflictError.
Proof.
  intros Hss Hi Hs. unfold initialize. rewrite Hss. simpl.
  by rewrite (existsb_completed ss i s).
Qed.

Lemma completedCount_none (ss : list OnboardingStep) :
  existsb completed ss = false → completedCount ss = 0.
Proof.
  induction ss as [|x ss IH]; [done|]. cbn [existsb].
  intros [Hx Hss]%orb_false_elim. rewrite completedCount_cons, Hx, IH; [lia|done].
Qed.

Lemma fresh_steps_follow_policy : follows_policy fresh_steps.
Proof. reflexivity. Qed.

(** Creating the steps anew over a record of the fixed sequence that
    has no completed step is no step back. *)
Lemma advances_fresh (ss : list OnboardingStep) :
  follows_policy ss → existsb completed ss = false → advances ss fresh_steps.
Proof.
  intros Hpol Hnone. split; [by rewrite Hpol|]. split.
  { by rewrite (follows_policy_length ss Hpol). }
  split; [rewrite (completedCount_none ss Hnone); apply completedCount_bounds|].
  intros i s Hi Hs. by rewrite (existsb_completed ss i s) in Hnone.
Qed.

Lemma step_advances (st : State) (o : Op) (talentId : string)
    (ss : list OnboardingStep) :
  onboarding st !! talentId = Some ss → follows_policy ss →
  ∃ ss', onboarding (step st o) !! talentId = Some ss' ∧ advances ss ss'.
Proof.
  intros Hss Hpol. destruct o as [tid|tid stepId who now]; cbn [step].
  - destruct (initialize tid st) as [e|[ss1 st']] eqn:Hc.
    { exists ss. split; [done|apply advances_refl]. }
    apply initialize_ok in Hc as (Hnone & _ & Hst' & _).
    rewrite Hst'. destruct (decide (tid = talentId)) as [->|Hne].
    + rewrite lookup_insert_eq. exists fresh_steps. split; [done|].
      apply advances_fresh; [done|]. by apply Hnone.
    + rewrite lookup_insert_ne by done. exists ss. split; [done|apply advances_refl].
  - destruct (completeStep tid stepId who now st) as [e|[ss1 st']] eqn:Hc.
    { exists ss. split; [done|apply advances_refl]. }
    apply completeStep_ok in Hc as (t & ss0 & _ & Hss0 & Hin & Hst' & _).
    rewrite Hst'. destruct (decide (tid = talentId)) as [->|Hne].
    + rewrite lookup_insert_eq. exists ss1. split; [done|].
      rewrite Hss in Hss0. injection Hss0 as <-.
      by apply complete_in_advances in Hin as [? _].
    + rewrite lookup_insert_ne by done. exists ss. split; [done|apply advances_refl].
Qed.

Lemma run_advances (ops : list Op) (st : State) (talentId : string)
    (ss : list OnboardingStep) :
  onboarding st !! talentId = Some ss → follows_policy ss →
  ∃ ss', onboarding (run ops st) !! talentId = Some ss' ∧ advances ss ss'.
Proof.
  revert st ss. induction ops as [|o ops IH]; intros st ss Hss Hpol.
  { exists ss. split; [done|apply advances_refl]. }
  destruct (step_advances st o talentId ss Hss Hpol) as (ss1 & Hss1 & Hadv1).
  destruct (IH _ ss1 Hss1 (advances_follows_policy ss ss1 Hadv1 Hpol)) as (ss2 & Hss2 & Hadv2).
  exists ss2. split; [done|]. by apply advances_trans with ss1.
Qed.

Lemma keeps_completed_refl (ss : list OnboardingStep) : keeps_completed ss ss.
Proof. by intros i s. Qed.

(** Whatever the record, no write touches a completed step. *)
Lemma step_keeps_completed_steps (st : State) (o : Op) (talentId : string)
    (ss : list OnboardingStep) :
  onboarding st !! talentId = Some ss →
  ∃ ss', onboarding (step st o) !! talentId = Some ss' ∧ keeps_completed ss ss'.
Proof.
  intros Hss. destruct o as [tid|tid stepId who now]; cbn [step].
  - destruct (initialize tid st) as [e|[ss1 st']] eqn:Hc.
    { exists ss. split; [done|apply keeps_completed_refl]. }
    apply initialize_ok in Hc as (Hnone & _ & Hst' & _).
    rewrite Hst'. destruct (decide (tid = talentId)) as [->|Hne].
    + rewrite lookup_insert_eq. exists fresh_steps. split; [done|].
      intros i s Hi Hs. specialize (Hnone ss Hss).
      by rewrite (existsb_completed ss i s) in Hnone.
    + rewrite lookup_insert_ne by done. exists ss. split; [done|apply keeps_completed_refl].
  - destruct (completeStep tid stepId who now st) as [e|[ss1 st']] eqn:Hc.
    { exists ss. split; [done|apply keeps_completed_refl]. }
    apply completeStep_ok in Hc as (t & ss0 & _ & Hss0 & Hin & Hst' & _).
    rewrite Hst'. destruct (decide (tid = talentId)) as [->|Hne].
    + rewrite lookup_insert_eq. exists ss1. split; [done|].
      rewrite Hss in Hss0. injection Hss0 as <-.
      by apply complete_in_advances in Hin as [(_ & _ & _ & Hk) _].
    + rewrite lookup_insert_ne by done. exists ss. split; [done|apply keeps_completed_refl].
Qed.

Lemma run_keeps_completed_steps (ops : list Op) (st : State) (talentId : string)
    (ss : list OnboardingStep) :
  onboarding st !! talentId = Some ss →
  ∃ ss', onboarding (run ops st) !! talentId = Some ss' ∧ keeps_completed ss ss'.
Proof.
  revert st ss. induction ops as [|o ops IH]; intros st ss Hss.
  { exists ss. split; [done|apply keeps_completed_refl]. }
  destruct (step_keeps_completed_steps st o talentId ss Hss) as (ss1 & Hss1 & Hk1).
  destruct (IH _ ss1 Hss1) as (ss2 & Hss2 & Hk2).
  exists ss2. split; [done|]. intros i s Hi Hs. apply Hk2; [|done]. by apply Hk1.
Qed.

(** No write takes a talent out of the engine. *)
Lemma step_keeps_talent (st : State) (o : Op) (talentId : string) (t : Talent) :
  talents st !! talentId = Some t → ∃ t', talents (step st o) !! talentId = Some t'.
Proof.
  intros Ht. destruct o as [tid|tid stepId who now]; cbn [step].
  - destruct (initialize tid st) as [e|[ss1 st']] eqn:Hc; [by exists t|].
    apply initialize_ok in Hc as (_ & _ & _ & ->). by exists t.
  - destruct (completeStep tid stepId who now st) as [e|[ss1 st']] eqn:Hc; [by exists t|].
    apply completeStep_ok in Hc as (t0 & ss0 & _ & _ & _ & _ & ->).
    destruct (all_completed ss1); [|by exists t].
    destruct (decide (tid = talentId)) as [->|Hne].
    + rewrite lookup_insert_eq. by eexists.
    + rewrite lookup_insert_ne by done. by exists t.
Qed.

(** The flag follows completion through every write. *)
Lemma step_flagged (st : State) (o : Op) : flagged st → flagged (step st o).
Proof.
  intros Hf. destruct o as [tid|tid stepId who now]; cbn [step].
  - destruct (initialize tid st) as [e|[ss1 st']] eqn:Hc; [done|].
    apply initialize_ok in Hc as (_ & _ & Hon & Htal).
    intros talentId t ss. rewrite Hon, Htal.
    destruct (decide (tid = talentId)) as [->|Hne].
    + rewrite lookup_insert_eq. by intros _ [= <-].
    + rewrite lookup_insert_ne by done. apply Hf.
  - destruct (completeStep tid stepId who now st) as [e|[ss1 st']] eqn:Hc; [done|].
    apply completeStep_ok in Hc as (t0 & ss0 & Ht0 & _ & _ & Hon & Htal).
    intros talentId t ss. rewrite Hon, Htal.
    destruct (decide (tid = talentId)) as [->|Hne].
    + rewrite lookup_insert_eq. intros Ht [= <-] Hall. rewrite Hall in Ht.
      rewrite lookup_insert_eq in Ht. by injection Ht as <-.
    + rewrite lookup_insert_ne by done.
      destruct (all_completed ss1); [rewrite lookup_insert_ne by done|]; apply Hf.
Qed.

Lemma run_flagged (ops : list Op) (st : State) : flagged st → flagged (run ops st).
Proof.
  revert st. induction ops as [|o ops IH]; intros st Hf; [done|].
  apply IH. by apply step_flagged.
Qed.

Lemma run_keeps_talent (ops : list Op) (st : State) (talentId : string) (t : Talent) :
  talents st !! talentId = Some t → ∃ t', talents (run ops st) !! talentId = Some t'.
Proof.
  revert st t. induction ops as [|o ops IH]; intros st t Ht; [by exists t|].
  destruct (step_keeps_talent st o talentId t Ht) as (t1 & Ht1). by apply (IH _ t1).
Qed.

(** In a record of the fixed sequence a step is found by its id. *)
Lemma follows_policy_find (ss : list OnboardingStep) (i : nat) (s : OnboardingStep) :
  follows_policy ss → ss !! i = Some s →
  list_find (λ x, step_id x = step_id s) ss = Some (i, s).
Proof.
  intros Hnd%follows_policy_ids_NoDup Hi.
  apply (proj2 (list_find_Some _ _ _ _)). split; [done|]. split; [done|].
  intros j y Hj Hlt Hy.
  assert ((step_id <$> ss) !! j = Some (step_id s)) as Hj'.
  { by rewrite list_lookup_fmap, Hj, <- Hy. }
  assert ((step_id <$> ss) !! i = Some (step_id s)) as Hi'.
  { by rewrite list_lookup_fmap, Hi. }
  pose proof (NoDup_lookup _ _ _ _ Hnd Hj' Hi'). lia.
Qed.

End OnboardingSteps.

Section OnboardingClaims.
Import Core OnboardingEngine.

(** C6. For a record of the fixed step sequence, [progress] is
    round(100 x completedCount / totalSteps): the integer nearest to
    that share, here the share itself, twenty points a step, between
    0 and 100, and it is the figure the page shows for the record the
    engine serves. It never decreases, over one [completeStep] or over any
    sequence of writes of the engine. It is 100 exactly when every
    step is completed. The [completeStep] that brings it to 100 sets
    the talent's [onboarding_complete] flag in the state it returns,
    and from a state where the flag follows completion, every state
    that the engine's writes lead to shows the flag for a record at
    100. *)
Theorem progress_is_rounded_share
    (st : State) (talentId : string) (t : Talent) (ss : list OnboardingStep) :
  talents st !! talentId = Some t →
  onboarding st !! talentId = Some ss →
  follows_policy ss →
  progress ss = round_div (100 * completedCount ss) (totalSteps ss) ∧
  (2 * totalSteps ss * progress ss - totalSteps ss
     <= 200 * completedCount ss
     < 2 * totalSteps ss * progress ss + totalSteps ss) ∧
  totalSteps ss * progress ss = 100 * completedCount ss ∧
  0 <= progress ss <= 100 ∧
  TalentOnboarding.progressShown (get_onboarding talentId st) = progress ss ∧
  (progress ss = 100 ↔ all_completed ss = true) ∧
  (∀ ops, ∃ ss', onboarding (run ops st) !! talentId = Some ss' ∧
                 follows_policy ss' ∧ progress ss <= progress ss') ∧
  (∀ stepId who now ss' st', completeStep talentId stepId who now st = inr (ss', st') →
     progress ss <= progress ss' ∧
     onboarding st' !! talentId = Some ss' ∧
     get_onboarding talentId st' = Some (mkRecord talentId ss' (progress ss')) ∧
     (progress ss' = 100 →
        ∃ t', talents st' !! talentId = Some t' ∧ onboarding_complete t' = true)) ∧
  (flagged st →
   ∀ ops, ∃ ss' t', onboarding (run ops st) !! talentId = Some ss' ∧
                    talents (run ops st) !! talentId = Some t' ∧
                    (progress ss' = 100 → onboarding_complete t' = true)).
Proof.
  intros Ht Hss Hpol.
  pose proof (follows_policy_length ss Hpol) as Hlen.
  assert (∀ ss0, follows_policy ss0 → progress ss0 = 100 ↔ all_completed ss0 = true) as H100.
  { intros ss0 Hp0. apply progress_100_iff. rewrite (follows_policy_length ss0 Hp0). lia. }
  split; [done|]. split; [|split; [|split; [|split; [|split; [|split; [|split]]]]]].
  - pose proof (round_div_nearest (100 * completedCount ss) (totalSteps ss)) as Hr.
    fold (progress ss) in Hr. unfold totalSteps in *. lia.
  - rewrite (follows_policy_progress ss Hpol). unfold totalSteps. lia.
  - apply progress_range.
  - unfold get_onboarding, TalentOnboarding.progressShown. rewrite Hss. simpl.
    by case_decide.
  - by apply H100.
  - intros ops. destruct (run_advances ops st talentId ss Hss Hpol) as (ss' & Hss' & Hadv).
    exists ss'. split; [done|]. split; [by apply (advances_follows_policy ss)|].
    by apply advances_progress.
  - intros stepId who now ss' st' Hc.
    apply completeStep_ok in Hc as (t0 & ss0 & Ht0 & Hss0 & Hin & Hon & Htal).
    rewrite Hss in Hss0. injection Hss0 as <-.
    apply complete_in_advances in Hin as [Hadv _].
    assert (onboarding st' !! talentId = Some ss') as Hss'.
    { rewrite Hon. apply lookup_insert_eq. }
    split; [by apply advances_progress|]. split; [done|]. split.
    + unfold get_onboarding. by rewrite Hss'.
    + intros Hall%H100; [|by apply (advances_follows_policy ss)].
      rewrite Htal, Hall. exists (mark_onboarded t0).
      split; [apply lookup_insert_eq|done].
  - intros Hf ops.
    destruct (run_advances ops st talentId ss Hss Hpol) as (ss' & Hss' & Hadv).
    destruct (run_keeps_talent ops st talentId t Ht) as (t' & Ht').
    exists ss', t'. split; [done|]. split; [done|].
    intros Hall%H100; [|by apply (advances_follows_policy ss)].
    by apply (run_flagged ops st Hf talentId t' ss').
Qed.

Lemma progress_is_rounded_share_witness :
  onboarding (Samples.engine_of "talent-1" Samples.three_of_five) !! "talent-1"
    = Some Samples.three_of_five ∧
  follows_policy Samples.three_of_five ∧
  progress Samples.three_of_five = 60 ∧
  (progress Samples.three_of_five = 100 ↔ all_completed Samples.three_of_five = true).
Proof.
  split; [reflexivity|]. split; [reflexivity|]. split; [reflexivity|].
  destruct (progress_is_rounded_share (Samples.engine_of "talent-1" Samples.three_of_five)
              "talent-1" (mkTalent "talent-1" "T-001" "verified" false 0)
              Samples.three_of_five eq_refl eq_refl eq_refl)
    as (_ & _ & _ & _ & _ & Hiff & _).
  exact Hiff.
Defined.

(** C7. Completing a step that is already completed is a
    [ConflictError] and changes nothing, and so is creating the
    steps of its record anew; a completed step stays at its position with
    its completion time, unchanged, through every sequence of writes
    of the engine; and the page draws no Complete button for it. In a
    record of the fixed sequence the step is the one its id
    addresses. *)
Theorem completed_step_is_immutable
    (st : State) (talentId : string)
    (t : Talent) (ss : list OnboardingStep) (i : nat) (s : OnboardingStep) :
  talents st !! talentId = Some t →
  onboarding st !! talentId = Some ss →
  ss !! i = Some s →
  completed s = true →
  (∀ stepId who now,
     list_find (λ x, step_id x = stepId) ss = Some (i, s) →
     completeStep talentId stepId who now st = inl ConflictError ∧
     step st (CompleteStep talentId stepId who now) = st) ∧
  (follows_policy ss →
   ∀ who now,
     completeStep talentId (step_id s) who now st = inl ConflictError ∧
     step st (CompleteStep talentId (step_id s) who now) = st) ∧
  (initialize talentId st = inl ConflictError ∧ step st (Initialize talentId) = st) ∧
  (∀ ops, ∃ ss', onboarding (run ops st) !! talentId = Some ss' ∧ ss' !! i = Some s) ∧
  TalentOnboarding.completeButtonShown s = false.
Proof.
  intros Ht Hss Hi Hs.
  assert (∀ stepId who now,
            list_find (λ x, step_id x = stepId) ss = Some (i, s) →
            completeStep talentId stepId who now st = inl ConflictError ∧
            step st (CompleteStep talentId stepId who now) = st) as Hconflict.
  { intros stepId who now Hfind.
    assert (completeStep talentId stepId who now st = inl ConflictError) as Hc.
    { unfold completeStep. rewrite Ht, Hss, complete_in_spec, Hfind, Hs. done. }
    split; [done|]. cbn [step]. by rewrite Hc. }
  split; [done|]. split; [|split; [|split]].
  - intros Hpol who now. apply Hconflict. by apply follows_policy_find.
  - pose proof (initialize_completed talentId st ss i s Hss Hi Hs) as Hinit.
    split; [done|]. cbn [step]. by rewrite Hinit.
  - intros ops.
    destruct (run_keeps_completed_steps ops st talentId ss Hss) as (ss' & Hss' & Hk).
    exists ss'. split; [done|]. by apply Hk.
  - unfold TalentOnboarding.completeButtonShown. by rewrite Hs.
Qed.

Lemma completed_step_is_immutable_witness :
  completeStep "talent-1" "contract_signing" "ops" 9
               (Samples.engine_of "talent-1" Samples.three_of_five)
    = inl ConflictError ∧
  initialize "talent-1" (Samples.engine_of "talent-1" Samples.three_of_five)
    = inl ConflictError ∧
  ∀ ops, ∃ ss', onboarding (run ops (Samples.engine_of "talent-1" Samples.three_of_five))
                  !! "talent-1" = Some ss' ∧
                ss' !! 1%nat = Some (Samples.done_step "contract_signing").
Proof.
  destruct (completed_step_is_immutable
              (Samples.engine_of "talent-1" Samples.three_of_five)
              "talent-1"
              (mkTalent "talent-1" "T-001" "verified" false 0) Samples.three_of_five
              1%nat (Samples.done_step "contract_signing")
              eq_refl eq_refl eq_refl eq_refl) as (Hconflict & _ & [Hinit _] & Hkept & _).
  split; [|split; [exact Hinit|exact Hkept]].
  apply (Hconflict "contract_signing" "ops" 9). reflexivity.
Defined.

End OnboardingClaims.

(** ** The scenarios of the specification, run on the model *)

Section Scenarios.
Import Core.

(** A consent created without expiry is active; revoking it stores
    [revoked]; revoking it again is a [ConflictError]. *)
Example scenario_consent :
  ∃ c st1 c' st2,
    ConsentLedger.create "persona-1" "photo_shoot" [] "platform_only" "written notice" None
                         "ops" 1 (Samples.ledger_of []) = inr (c, st1) ∧
    ConsentLedger.status c = "active" ∧
    ConsentLedger.revoke (ConsentLedger.id c) "ops" 2 st1 = inr (c', st2) ∧
    ConsentLedger.status c' = "revoked" ∧
    ConsentLedger.revoke (ConsentLedger.id c) "ops" 3 st2 = inl ConflictError.
Proof. do 4 eexists. repeat split; by vm_compute. Qed.

(** A critical open incident: empty notes are a [ValidationError];
    notes "patched" resolve it and stamp the resolution time. *)
Example scenario_incident :
  IncidentTracker.resolve "incident-1" [] "ops" 5 (Samples.tracker_of Samples.open_incident)
    = inl ValidationError ∧
  ∃ i st', IncidentTracker.resolve "incident-1" (Js.of_string "patched") "ops" 5
                                   (Samples.tracker_of Samples.open_incident) = inr (i, st') ∧
           IncidentTracker.status i = "resolved" ∧
           IncidentTracker.resolved_at i = Some 5.
Proof. split; [by vm_compute|]. do 2 eexists. repeat split; by vm_compute. Qed.

(** Five steps: three completed give 60; the remaining two give 100
    and set the talent's flag. Creating the record anew after the
    third step is refused and leaves the 60. *)
Example scenario_onboarding :
  let st0 := OnboardingEngine.run [OnboardingEngine.Initialize "talent-1"]
               (Samples.engine_before "talent-1") in
  let done3 := OnboardingEngine.run
                 [OnboardingEngine.CompleteStep "talent-1" "identity_verification" "ops" 1;
                  OnboardingEngine.CompleteStep "talent-1" "contract_signing" "ops" 2;
                  OnboardingEngine.CompleteStep "talent-1" "persona_setup" "ops" 3] st0 in
  let done5 := OnboardingEngine.run
                 [OnboardingEngine.Initialize "talent-1";
                  OnboardingEngine.CompleteStep "talent-1" "safety_briefing" "ops" 4;
                  OnboardingEngine.CompleteStep "talent-1" "platform_access" "ops" 5] done3 in
  OnboardingEngine.overall_progress <$> OnboardingEngine.get_onboarding "talent-1" st0 = Some 0 ∧
  OnboardingEngine.overall_progress <$> OnboardingEngine.get_onboarding "talent-1" done3
    = Some 60 ∧
  OnboardingEngine.onboarding_complete <$> OnboardingEngine.talents done3 !! "talent-1"
    = Some false ∧
  OnboardingEngine.initialize "talent-1" done3 = inl ConflictError ∧
  OnboardingEngine.overall_progress <$> OnboardingEngine.get_onboarding "talent-1" done5
    = Some 100 ∧
  OnboardingEngine.onboarding_complete <$> OnboardingEngine.talents done5 !! "talent-1"
    = Some true.
Proof. repeat split; by vm_compute. Qed.

(** A completed task cannot be moved to [blocked]. *)
Example scenario_task :
  TaskBoard.setStatus "t2" "blocked" "ops" 7 (Samples.board_of Samples.mixed_tasks)
    = inl ConflictError.
Proof. by vm_compute. Qed.

End Scenarios.

(** * Further properties of the pages *)

Local Open Scope list_scope.

(** ** Trimming *)

Section TrimShape.
Import Js.

Lemma drop_while_split (p : N → bool) (s : text) :
  ∃ pre, s = pre ++ drop_while p s ∧ Forall (λ u, p u = true) pre.
Proof.
  induction s as [|u s (pre & Hs & Hpre)]; [by exists []|].
  simpl. destruct (p u) eqn:Hu.
  - exists (u :: pre). split; [by rewrite Hs at 1|by constructor].
  - by exists [].
Qed.

Lemma drop_while_id (p : N → bool) (s : text) :
  (∀ u, head s = Some u → p u = false) → drop_while p s = s.
Proof. destruct s as [|u s]; [done|]. intros H. simpl. by rewrite (H u). Qed.

Lemma drop_while_head_false (p : N → bool) (s : text) (u : N) :
  head (drop_while p s) = Some u → p u = false.
Proof.
  destruct (drop_while p s) as [|v t] eqn:Hd; [done|].
  intros [= <-]. by apply drop_while_head in Hd.
Qed.

Lemma trimEnd_split (s : text) :
  ∃ post, s = trimEnd s ++ post ∧ Forall (λ u, isWhiteSpace u = true) post.
Proof.
  unfold trimEnd.
  destruct (drop_while_split isWhiteSpace (reverse s)) as (pre & Hs & Hpre).
  exists (reverse pre). split; [|by apply Forall_reverse].
  rewrite <- reverse_app, <- Hs. by rewrite reverse_involutive.
Qed.

Lemma trimEnd_last (s : text) (u : N) :
  last (trimEnd s) = Some u → isWhiteSpace u = false.
Proof. unfold trimEnd. rewrite last_reverse. apply drop_while_head_false. Qed.

Lemma trim_split (s : text) :
  ∃ pre post, s = pre ++ trim s ++ post ∧
              Forall (λ u, isWhiteSpace u = true) pre ∧
              Forall (λ u, isWhiteSpace u = true) post.
Proof.
  unfold trim, trimStart.
  destruct (drop_while_split isWhiteSpace s) as (pre & Hs & Hpre).
  destruct (trimEnd_split (drop_while isWhiteSpace s)) as (post & Hd & Hpost).
  exists pre, post. split; [|done]. by rewrite <- Hd.
Qed.

Lemma trim_ends (s : text) :
  (∀ u, head (trim s) = Some u → isWhiteSpace u = false) ∧
  (∀ u, last (trim s) = Some u → isWhiteSpace u = false).
Proof.
  split; [|apply trimEnd_last].
  unfold trim, trimStart. intros u Hu.
  destruct (trimEnd_split (drop_while isWhiteSpace s)) as (post & Hd & _).
  apply (drop_while_head_false isWhiteSpace s). rewrite Hd.
  rewrite head_app. by rewrite Hu.
Qed.

Lemma trim_fixed (t : text) :
  (∀ u, head t = Some u → isWhiteSpace u = false) →
  (∀ u, last t = Some u → isWhiteSpace u = false) →
  trim t = t.
Proof.
  intros Hh Hl. unfold trim, trimStart, trimEnd.
  rewrite (drop_while_id _ t) by done.
  rewrite drop_while_id; [apply reverse_involutive|].
  intros u. rewrite head_reverse. apply Hl.
Qed.

(** X1. [trim] removes white space from the two ends and nothing
    else: the input is the trimmed text between two runs of white
    space, the trimmed text neither starts nor ends with white space,
    and trimming twice changes nothing more. So the resolve dialog,
    which tests the trimmed notes, answers "Resolution notes are
    required" and leaves everything as it was exactly when the notes
    are white space from end to end. *)
Theorem trim_keeps_the_middle (s : text) :
  (∃ pre post, s = pre ++ trim s ++ post ∧
               Forall (λ u, isWhiteSpace u = true) pre ∧
               Forall (λ u, isWhiteSpace u = true) post) ∧
  (∀ u, head (trim s) = Some u → isWhiteSpace u = false) ∧
  (∀ u, last (trim s) = Some u → isWhiteSpace u = false) ∧
  trim (trim s) = trim s ∧
  (∀ who now reply pg srv,
     Incidents.resolutionNotes pg = s →
     Incidents.handleResolve who now reply pg srv
       = ([Core.toast_error "Resolution notes are required"], pg, srv)
     ↔ Forall (λ u, isWhiteSpace u = true) s).
Proof.
  pose proof (trim_ends s) as [Hh Hl].
  split; [apply trim_split|]. split; [done|]. split; [done|].
  split; [by apply trim_fixed|].
  intros who now reply pg srv <-. rewrite <- trim_nil_iff. split.
  - intros Hres. destruct (decide (trim (Incidents.resolutionNotes pg) = [])) as [|Hnb]; [done|].
    exfalso. unfold Incidents.handleResolve in Hres. rewrite decide_False in Hres by done.
    destruct (JsUri.encodable _); [|discriminate].
    destruct (IncidentTracker.resolve _ _ _ _ _) as [e|[i' srv']]; [discriminate|].
    destruct (Incidents.fetchData _ _). discriminate.
  - apply handleResolve_blank.
Qed.

Lemma trim_leading (u : N) (s : text) : isWhiteSpace u = true → trim (u :: s) = trim s.
Proof. intros Hu. unfold trim, trimStart. simpl. by rewrite Hu. Qed.

End TrimShape.

(** ** Comma-separated form fields *)

Section CommaLists.
Import Js JsString Forms.

Lemma split_nonempty (sep : N) (s : text) : split sep s ≠ [].
Proof.
  destruct s as [|u s]; [done|]. simpl.
  case_decide; [done|]. by destruct (split sep s).
Qed.

Lemma split_pieces (sep : N) (s : text) : Forall (λ piece, sep ∉ piece) (split sep s).
Proof.
  induction s as [|u s IH]; simpl.
  - repeat constructor. by intros ?%elem_of_nil.
  - case_decide.
    + constructor; [by intros ?%elem_of_nil|done].
    + destruct (split sep s) as [|piece rest].
      * repeat constructor. intros [->|?%elem_of_nil]%elem_of_cons; done.
      * apply Forall_cons in IH as [Hp Hrest]. constructor; [|done].
        intros [->|?]%elem_of_cons; done.
Qed.

Lemma split_whole (sep : N) (t : text) : sep ∉ t → split sep t = [t].
Proof.
  induction t as [|u t IH]; [done|]. intros Hn.
  simpl. rewrite decide_False by (intros ->; apply Hn; left).
  rewrite IH; [done|]. intros ?; apply Hn. by right.
Qed.

Lemma split_at_sep (sep : N) (t s : text) :
  sep ∉ t → split sep (t ++ sep :: s) = t :: split sep s.
Proof.
  induction t as [|u t IH]; intros Hn.
  - simpl. by rewrite decide_True.
  - simpl. rewrite decide_False by (intros ->; apply Hn; left).
    rewrite IH; [done|]. intros ?; apply Hn. by right.
Qed.

Lemma split_leading (sep u : N) (s : text) :
  u ≠ sep → isWhiteSpace u = true → trim <$> split sep (u :: s) = trim <$> split sep s.
Proof.
  intros Hne Hu. simpl. rewrite decide_False by done.
  pose proof (split_nonempty sep s).
  destruct (split sep s) as [|piece rest]; [done|].
  rewrite !fmap_cons. by rewrite trim_leading.
Qed.

Lemma blank_pieces (sep : N) (s : text) :
  Forall (λ piece, Forall (λ u, isWhiteSpace u = true) piece) (split sep s)
  ↔ Forall (λ u, isWhiteSpace u = true ∨ u = sep) s.
Proof.
  induction s as [|u s IH]; simpl.
  - split; intros _; repeat constructor.
  - case_decide as Hu.
    + rewrite !Forall_cons, IH. split; [intros [_ ?]; auto|intros [_ ?]; auto].
    + pose proof (split_nonempty sep s).
      destruct (split sep s) as [|piece rest]; [done|].
      rewrite !Forall_cons in *. rewrite <- IH. tauto.
Qed.

Lemma join_cons_cons (sep t t' : text) (rest : list text) :
  join sep (t :: t' :: rest) = t ++ sep ++ join sep (t' :: rest).
Proof. reflexivity. Qed.

Lemma join_split (sep : N) (s : text) : join [sep] (split sep s) = s.
Proof.
  induction s as [|u s IH]; [done|]. simpl.
  pose proof (split_nonempty sep s).
  destruct (split sep s) as [|first rest]; [done|].
  case_decide as Hu.
  - rewrite join_cons_cons, IH, Hu. done.
  - destruct rest as [|r rs].
    + simpl in *. by rewrite IH.
    + rewrite join_cons_cons in *. by rewrite <- IH.
Qed.

Lemma join_infix (sep : text) (l : list text) (piece : text) :
  piece ∈ l → ∃ pre post, join sep l = pre ++ piece ++ post.
Proof.
  induction l as [|t rest IH]; [by intros ?%elem_of_nil|].
  destruct rest as [|r rs].
  - intros [->|?%elem_of_nil]%elem_of_cons; [|done]. exists [], []. simpl. by rewrite app_nil_r.
  - rewrite join_cons_cons. intros [->|Hin]%elem_of_cons.
    + by exists [], (sep ++ join sep (r :: rs)).
    + destruct (IH Hin) as (pre & post & ->).
      exists (t ++ sep ++ pre), post. by rewrite <- !app_assoc.
Qed.

Lemma split_infix (sep : N) (s piece : text) :
  piece ∈ split sep s → ∃ pre post, s = pre ++ piece ++ post.
Proof.
  intros Hin. destruct (join_infix [sep] _ _ Hin) as (pre & post & Hj).
  rewrite join_split in Hj. by exists pre, post.
Qed.

Lemma commaList_clean (field : text) : Forall clean (commaList field).
Proof.
  unfold commaList. apply Forall_forall. intros t Ht.
  apply list_elem_of_filter in Ht as [Hne Ht].
  apply list_elem_of_fmap in Ht as (piece & -> & Hpiece).
  split; [done|]. split; [apply trim_fixed; apply trim_ends|].
  pose proof (split_pieces comma field) as Hp. rewrite Forall_forall in Hp.
  specialize (Hp piece Hpiece). intros Hin. apply Hp.
  destruct (trim_split piece) as (pre & post & Hs & _).
  rewrite Hs. rewrite !elem_of_app. auto.
Qed.

(** X2. Every entry of a parsed comma list is non-empty, carries no
    white space at either end, contains no comma, and is a part of the
    field as typed. *)
Theorem commaList_entries_clean (field : text) :
  Forall (λ t, clean t ∧ ∃ pre post, field = pre ++ t ++ post) (commaList field).
Proof.
  pose proof (commaList_clean field) as Hclean. rewrite Forall_forall in Hclean.
  apply Forall_forall. intros t Ht. split; [by apply Hclean|].
  unfold commaList in Ht. apply list_elem_of_filter in Ht as [_ Ht].
  apply list_elem_of_fmap in Ht as (piece & -> & Hpiece).
  destruct (split_infix _ _ _ Hpiece) as (pre & post & ->).
  destruct (trim_split piece) as (pre' & post' & Hp & _).
  exists (pre ++ pre'), (post' ++ post).
  rewrite Hp at 1. by rewrite <- !app_assoc.
Qed.

Lemma commaList_nil_iff (field : text) :
  commaList field = [] ↔ Forall (λ u, isWhiteSpace u = true ∨ u = comma) field.
Proof.
  rewrite <- blank_pieces. unfold commaList.
  induction (split comma field) as [|piece rest IH]; [by split|].
  rewrite fmap_cons, filter_cons, Forall_cons, <- IH, <- trim_nil_iff.
  case_decide; split; try done; intros [? ?]; done.
Qed.

(** X3. A field parses to the empty list exactly when it holds
    nothing but white space and commas, the empty field included; a
    field with any other character yields at least one entry. *)
Theorem commaList_empty_iff_blank (field : text) :
  commaList [] = [] ∧
  (commaList field = [] ↔ Forall (λ u, isWhiteSpace u = true ∨ u = comma) field) ∧
  (∀ u, u ∈ field → isWhiteSpace u = false → u ≠ comma → commaList field ≠ []).
Proof.
  split; [done|]. split; [apply commaList_nil_iff|].
  intros u Hin Hws Hc Hnil%commaList_nil_iff.
  rewrite Forall_forall in Hnil. destruct (Hnil u Hin); congruence.
Qed.

Lemma commaList_join (tokens : list text) :
  Forall clean tokens → commaList (join [comma; space] tokens) = tokens.
Proof.
  induction 1 as [|t rest (Hne & Ht & Hc) Hrest IH]; [done|].
  destruct rest as [|t' rest'].
  - simpl. unfold commaList. rewrite split_whole by done.
    simpl. by rewrite Ht, filter_cons, decide_True, filter_nil.
  - rewrite join_cons_cons. unfold commaList in *.
    change ([comma; space] ++ ?x) with (comma :: space :: x).
    rewrite split_at_sep by done. rewrite fmap_cons, Ht, filter_cons, decide_True by done.
    rewrite split_leading by done. f_equal. exact IH.
Qed.

Lemma join_nil_iff (sep : text) (tokens : list text) :
  Forall (λ t, t ≠ []) tokens → join sep tokens = [] ↔ tokens = [].
Proof.
  intros Hne. split; [|by intros ->].
  destruct Hne as [|t rest Ht _]; [done|].
  simpl. destruct rest; [done|]. intros [? _]%app_eq_nil. done.
Qed.

(** X4. Joining clean entries with ", " and parsing the result gives
    the entries back, in order; the joined line is empty only for the
    empty list. *)
Theorem commaList_join_round_trip (tokens : list text) :
  Forall clean tokens →
  commaList (join [comma; space] tokens) = tokens ∧
  (join [comma; space] tokens = [] ↔ tokens = []).
Proof.
  intros Hclean. split; [by apply commaList_join|].
  apply join_nil_iff. eapply Forall_impl; [exact Hclean|]. by intros t [? _].
Qed.

Lemma commaList_join_round_trip_witness :
  Forall clean [of_string "onlyfans"; of_string "fansly"] ∧
  commaList (join [comma; space] [of_string "onlyfans"; of_string "fansly"])
    = [of_string "onlyfans"; of_string "fansly"].
Proof.
  assert (Forall clean [of_string "onlyfans"; of_string "fansly"]) as Hclean.
  { repeat constructor; try done; intros Hin; vm_compute in Hin;
      repeat (apply elem_of_cons in Hin as [Hin|Hin]; [discriminate|]);
      by apply elem_of_nil in Hin. }
  split; [exact Hclean|]. exact (proj1 (commaList_join_round_trip _ Hclean)).
Defined.

(** X5. What the persona form parses from the platforms field and what
    the persona card prints agree: a field of only white space and
    commas is shown as "None specified"; any other field is shown as
    its entries joined by ", ", and that line parses back to the same
    entries. *)
Theorem platformsLine_of_commaList (field : text) :
  (Forall (λ u, isWhiteSpace u = true ∨ u = comma) field →
     PersonaCard.platformsLine (commaList field) = of_string "None specified") ∧
  (¬ Forall (λ u, isWhiteSpace u = true ∨ u = comma) field →
     PersonaCard.platformsLine (commaList field) = join [comma; space] (commaList field) ∧
     PersonaCard.platformsLine (commaList field) ≠ [] ∧
     commaList (PersonaCard.platformsLine (commaList field)) = commaList field).
Proof.
  pose proof (commaList_clean field) as Hclean.
  assert (Forall (λ t : text, t ≠ []) (commaList field)) as Hne.
  { eapply Forall_impl; [exact Hclean|]. by intros t [? _]. }
  split.
  - intros Hblank%commaList_nil_iff. by rewrite Hblank.
  - intros Hnb. rewrite <- commaList_nil_iff in Hnb.
    unfold PersonaCard.platformsLine. cbv zeta.
    rewrite decide_False by (by rewrite join_nil_iff).
    split; [done|]. split; [by rewrite join_nil_iff|]. by apply commaList_join.
Qed.

End CommaLists.

(** ** The task board *)

Section BoardColumns.
Import TaskBoard Tasks Board.

Lemma filter_status_twice (k k' : string) (ts : list Task) :
  filter (λ t, status t = k') (filter (λ t, status t = k) ts)
  = if decide (k = k') then filter (λ t, status t = k) ts else [].
Proof.
  induction ts as [|t ts IH]; [by case_decide|].
  rewrite filter_cons. destruct (decide (status t = k)) as [Hk|Hk].
  - rewrite filter_cons, IH. repeat case_decide; try done; congruence.
  - rewrite IH. by case_decide.
Qed.

(** X6. With a status selected in the filter, the board fills that
    column only: the column of the selected status holds every task of
    that status, in input order, and the other three columns are
    empty. With "all" selected the columns are those of the whole
    list. *)
Theorem board_under_status_filter (filterStatus : string) (tasks : list Task) :
  (filterStatus = "all" →
     groupedTasks (filteredTasks filterStatus tasks) = groupedTasks tasks) ∧
  (filterStatus ≠ "all" →
     ∀ k, k ∈ statuses →
       groupedTasks (filteredTasks filterStatus tasks) !! k
       = Some (if decide (filterStatus = k) then filter (λ t, status t = k) tasks else [])).
Proof.
  unfold filteredTasks. split.
  - intros ->. by rewrite decide_True.
  - intros Hne k Hk. rewrite decide_False by done.
    rewrite groupedTasks_lookup by done. rewrite filter_status_twice.
    by case_decide; subst.
Qed.

Lemma column_statuses (ts : list Task) (t : Task) :
  (t ∈ pendingCards (groupedTasks ts) → status t = "pending") ∧
  (t ∈ inProgressCards (groupedTasks ts) → status t = "in_progress") ∧
  (t ∈ completedCards (groupedTasks ts) → status t = "completed") ∧
  (t ∈ blockedCards (groupedTasks ts) → status t = "blocked").
Proof.
  unfold pendingCards, inProgressCards, completedCards, blockedCards.
  repeat split; intros Hin.
  - change (t ∈ filter (λ t, status t = "pending") ts) in Hin.
    by apply list_elem_of_filter in Hin as [? _].
  - change (t ∈ filter (λ t, status t = "in_progress") ts) in Hin.
    by apply list_elem_of_filter in Hin as [? _].
  - change (t ∈ take 5 (filter (λ t, status t = "completed") ts)) in Hin.
    apply elem_of_take in Hin as (i & Hi & _).
    apply list_elem_of_lookup_2 in Hi. by apply list_elem_of_filter in Hi as [? _].
  - change (t ∈ filter (λ t, status t = "blocked") ts) in Hin.
    by apply list_elem_of_filter in Hin as [? _].
Qed.

(** X7. The buttons on the cards of each column: a card in the
    Pending column offers Start and Block, a card in the In Progress
    column offers Complete and Block, and the cards of the Completed
    and Blocked columns offer no button at all, so the page has no way
    to move a task out of [blocked] or [completed]. *)
Theorem column_card_actions (tasks : list Task) (t : Task) :
  (t ∈ pendingCards (groupedTasks tasks) → taskCardActions t = ["in_progress"; "blocked"]) ∧
  (t ∈ inProgressCards (groupedTasks tasks) → taskCardActions t = ["completed"; "blocked"]) ∧
  (t ∈ completedCards (groupedTasks tasks) → taskCardActions t = []) ∧
  (t ∈ blockedCards (groupedTasks tasks) → taskCardActions t = []).
Proof.
  destruct (column_statuses tasks t) as (Hp & Hi & Hc & Hb).
  unfold taskCardActions.
  repeat split; intros Hin;
    [apply Hp in Hin|apply Hi in Hin|apply Hc in Hin|apply Hb in Hin];
    rewrite Hin; repeat case_decide; try done;
    try (exfalso; intuition discriminate).
Qed.

(** X8. The Completed column draws the first five completed tasks of
    the input, in input order, while its count badge counts them all:
    the cards are as many as the badge says exactly when there are at
    most five, and otherwise five. *)
Theorem completed_column_is_capped (tasks : list Task) :
  completedCards (groupedTasks tasks) = take 5 (filter (λ t, status t = "completed") tasks) ∧
  completedCards (groupedTasks tasks) `prefix_of` filter (λ t, status t = "completed") tasks ∧
  length (completedCards (groupedTasks tasks)) = min 5 (columnCount "completed" (groupedTasks tasks)) ∧
  (length (completedCards (groupedTasks tasks)) = columnCount "completed" (groupedTasks tasks)
   ↔ (columnCount "completed" (groupedTasks tasks) <= 5)%nat).
Proof.
  unfold completedCards, columnCount.
  change (groupedTasks tasks !!! "completed")
    with (filter (λ t, status t = "completed") tasks).
  split; [done|]. split; [apply prefix_take|].
  rewrite length_take. split; lia.
Qed.

End BoardColumns.

(** ** Persona rows and persona names *)

Section PersonaRows.
Import Jsx Personas PersonaTable.

(** X9. The platforms cell never hides a platform without saying so:
    it shows the first two platforms in order, and the number on the
    [+N] badge, drawn exactly when there are more than two, is the
    number of platforms left out. *)
Theorem platformBadges_account_for_all (allowed_platforms : list string) :
  ((length allowed_platforms <= 2)%nat →
     platformBadges allowed_platforms
     = (λ p, mkBadge "text-xs" [Text p]) <$> allowed_platforms) ∧
  ((2 < length allowed_platforms)%nat →
     ∃ n, platformBadges allowed_platforms
          = ((λ p, mkBadge "text-xs" [Text p]) <$> take 2 allowed_platforms)
            ++ [mkBadge "text-xs" [Text "+"; Num n]] ∧
          0 < n ∧ 2 + n = Z.of_nat (length allowed_platforms)).
Proof.
  unfold platformBadges. split; intros Hlen.
  - rewrite decide_False by lia. rewrite take_ge by lia. by rewrite app_nil_r.
  - rewrite decide_True by done. eexists. split; [done|]. lia.
Qed.

Lemma find_by_id_first (personas : list Persona) (p : Persona) :
  NoDup (id <$> personas) → p ∈ personas →
  ∃ i, list_find (λ q, id q = id p) personas = Some (i, p).
Proof.
  induction personas as [|q qs IH]; intros Hnd Hin; [by apply elem_of_nil in Hin|].
  rewrite fmap_cons in Hnd. apply NoDup_cons in Hnd as [Hq Hnd].
  cbn [list_find]. case_decide as Heq.
  - apply elem_of_cons in Hin as [->|Hin]; [by eexists|].
    exfalso. apply Hq. rewrite Heq. apply list_elem_of_fmap. by exists p.
  - apply elem_of_cons in Hin as [->|Hin]; [done|].
    destruct (IH Hnd Hin) as (i & ->). by eexists.
Qed.

(** X10. Looking a persona name up by id: when the ids of the list are
    distinct, the id of a listed persona with a non-empty name gives
    that name; an id that no listed persona carries, and one whose
    persona has an empty name, gives "Unknown". *)
Theorem getPersonaName_by_id (personas : list Persona) :
  NoDup (id <$> personas) →
  (∀ p, p ∈ personas → persona_name p ≠ "" →
     getPersonaName personas (id p) = persona_name p) ∧
  (∀ p, p ∈ personas → persona_name p = "" →
     getPersonaName personas (id p) = "Unknown") ∧
  (∀ personaId, personaId ∉ (id <$> personas) →
     getPersonaName personas personaId = "Unknown").
Proof.
  intros Hnd. unfold getPersonaName. repeat split.
  - intros p Hin Hname. destruct (find_by_id_first personas p Hnd Hin) as (i & ->).
    by rewrite decide_False.
  - intros p Hin Hname. destruct (find_by_id_first personas p Hnd Hin) as (i & ->).
    by rewrite decide_True.
  - intros personaId Hout.
    destruct (list_find _ personas) as [[i q]|] eqn:Hfind; [|done].
    apply (proj1 (list_find_Some _ _ _ _)) in Hfind as (Hq & Hid & _).
    exfalso. apply Hout. apply list_elem_of_fmap. exists q.
    split; [done|]. by eapply list_elem_of_lookup_2.
Qed.

Lemma getPersonaName_by_id_witness :
  NoDup (id <$> [mkPersona "p1" "t1" "Luna" "warm" [] "standard" 10 "active";
                  mkPersona "p2" "t1" "" "cool" [] "premium" 60 "active"]) ∧
  getPersonaName [mkPersona "p1" "t1" "Luna" "warm" [] "standard" 10 "active";
                  mkPersona "p2" "t1" "" "cool" [] "premium" 60 "active"] "p3" = "Unknown".
Proof.
  assert (NoDup (id <$> [mkPersona "p1" "t1" "Luna" "warm" [] "standard" 10 "active";
                          mkPersona "p2" "t1" "" "cool" [] "premium" 60 "active"])) as Hnd.
  { compute_done. }
  split; [exact Hnd|].
  destruct (getPersonaName_by_id _ Hnd) as (_ & _ & Hout).
  apply Hout. compute_done.
Defined.

(** X11. A task card carries a persona badge exactly when the task
    names a persona id that is not empty, some listed persona has that
    id, and the first such persona has a non-empty name. *)
Theorem personaBadgeShown_iff (personas : list Persona) (task : TaskBoard.Task) :
  personaBadgeShown personas task = true
  ↔ ∃ pid i p, TaskBoard.persona_id task = Some pid ∧ pid ≠ "" ∧
               list_find (λ q, id q = pid) personas = Some (i, p) ∧
               persona_name p ≠ "".
Proof.
  unfold personaBadgeShown, getTaskPersonaName.
  destruct (TaskBoard.persona_id task) as [pid|]; [|split; [done|by intros (? & ? & ? & ? & _)]].
  case_decide as Hpid.
  { split; [done|]. intros (? & ? & ? & [= <-] & ? & _). done. }
  destruct (list_find _ personas) as [[i p]|] eqn:Hfind; simpl.
  - rewrite negb_true_iff, bool_decide_eq_false. split.
    + intros Hname. by exists pid, i, p.
    + intros (? & ? & ? & [= <-] & _ & Hf & Hname). rewrite Hfind in Hf. by injection Hf as <- <-.
  - split; [done|]. intros (? & ? & ? & [= <-] & _ & Hf & _). by rewrite Hfind in Hf.
Qed.

End PersonaRows.

(** ** Sidebar, roles and routes *)

Section Navigation.
Import Layout.

Lemma navItems_paths_distinct : NoDup (path <$> navItems).
Proof. compute_done. Qed.

Lemma active_items_of_distinct (pathname : string) (items : list NavItem) :
  NoDup (path <$> items) →
  (length (filter (λ item, isActive pathname item = true) items) <= 1)%nat ∧
  (length (filter (λ item, isActive pathname item = true) items) = 1%nat
   ↔ pathname ∈ (path <$> items)).
Proof.
  induction items as [|item items IH]; intros Hnd.
  - simpl. split; [lia|]. split; [done|]. by intros ?%elem_of_nil.
  - rewrite fmap_cons in *. apply NoDup_cons in Hnd as [Hitem Hnd].
    destruct (IH Hnd) as [Hle Hiff]. rewrite filter_cons, elem_of_cons.
    assert (isActive pathname item = true ↔ pathname = path item) as Hact.
    { unfold isActive. apply bool_decide_eq_true. }
    destruct (decide (isActive pathname item = true)) as [Heq%Hact|Hne].
    + assert (length (filter (λ i, isActive pathname i = true) items) ≠ 1%nat) as Hnone.
      { rewrite Hiff, Heq. done. }
      cbn [length]. split; [lia|]. split; [auto|lia].
    + split; [done|]. rewrite Hiff, <- Hact. tauto.
Qed.

(** X12. The sidebar marks at most one link as active, whatever the
    location, and marks one exactly when the location is literally one
    of the seven paths of the menu; on the detail page of a talent,
    "/talents/" followed by an id, no link is marked. *)
Theorem sidebar_active_link (pathname : string) :
  (length (filter (λ item, isActive pathname item = true) navItems) <= 1)%nat ∧
  (length (filter (λ item, isActive pathname item = true) navItems) = 1%nat
   ↔ pathname ∈ (path <$> navItems)) ∧
  (∀ talentId, filter (λ item, isActive ("/talents/" +:+ talentId) item = true) navItems = []).
Proof.
  destruct (active_items_of_distinct pathname navItems navItems_paths_distinct) as [Hle Hiff].
  split; [done|]. split; [done|].
  intros talentId. unfold navItems, isActive.
  repeat (rewrite filter_cons, decide_False
            by (rewrite bool_decide_eq_true; simpl; discriminate)).
  done.
Qed.

(** X13. The registration form and the sidebar know the same roles:
    every role the form offers has a label of its own in the sidebar,
    and the sidebar labels nothing else; a role outside the table
    (and not a property name every object inherits) is shown as it
    is. *)
Theorem login_roles_are_labelled (role : string) :
  (role ∈ (fst <$> Login.roles) ↔ is_Some (roleLabels !! role)) ∧
  (role ∈ (fst <$> Login.roles) → roleShown role ≠ role) ∧
  (role ∉ (fst <$> Login.roles) → role ∉ JsObject.inherited → roleShown role = role).
Proof.
  assert (role ∈ (fst <$> Login.roles) ↔ is_Some (roleLabels !! role)) as Hiff.
  { split.
    - intros Hin%list_elem_of_In. simpl in Hin.
      destruct Hin as [<-|[<-|[<-|[<-|[<-|[<-|[]]]]]]]; by eexists.
    - intros [lbl Hl]. destruct (decide (role ∈ (fst <$> Login.roles))) as [|Hout]; [done|].
      exfalso. unfold roleLabels in Hl.
      rewrite !lookup_insert_ne, lookup_singleton_ne in Hl; [done|..];
        intros <-; apply Hout, list_elem_of_In; simpl; tauto. }
  split; [done|]. split.
  - intros Hin%list_elem_of_In. simpl in Hin.
    destruct Hin as [<-|[<-|[<-|[<-|[<-|[<-|[]]]]]]]; by vm_compute.
  - intros Hout _. unfold roleShown, Jsx.lookup_or.
    destruct (roleLabels !! role) as [lbl|] eqn:Hl; [|done].
    exfalso. apply Hout, Hiff. by eexists.
Qed.

End Navigation.

Section Routing.
Import App.

(** X14. Once the session is loaded, rendering any route and following
    a redirect once ends on a page: the login page when nobody is
    signed in, the dashboard when a signed-in user asks for the login
    route, and the page asked for otherwise. No route redirects twice,
    a page inside the layout is only ever rendered for a signed-in
    user, and while the session loads only the spinner is shown. *)
Theorem routes_settle_in_one_redirect (user : bool) (route : Route) :
  (user = false → settle false user route = LoginPage) ∧
  (user = true → route = RLogin → settle false user route = InLayout RDashboard) ∧
  (user = true → route ≠ RLogin → settle false user route = InLayout route) ∧
  (∀ page, AppRoutes false user route = InLayout page → user = true ∧ page = route) ∧
  (∀ loading, AppRoutes loading user route = LoginPage → loading = false ∧ user = false) ∧
  AppRoutes true user route = Spinner.
Proof.
  destruct user, route; repeat split; intros; try done; try congruence;
    try (by destruct loading);
    match goal with H : AppRoutes _ _ _ = InLayout _ |- _ => by injection H end.
Qed.

End Routing.

(** ** Dashboard alerts *)

Section Alerts.
Import Jsx Dashboard.

(** X15. An alert's icon tint and its severity badge agree for every
    severity text that is not a property name every object inherits:
    red with [badge-danger] (critical, high), amber with
    [badge-warning] (medium), blue with [badge-info] (low and every
    other text); the badge always prints the severity as delivered. *)
Theorem alert_tint_matches_badge (severity : string) :
  severity ∉ JsObject.inherited →
  (alertTint severity = "bg-red-500/20 text-red-400"
   ↔ className (getSeverityBadge severity) = "badge-danger") ∧
  (alertTint severity = "bg-amber-500/20 text-amber-400"
   ↔ className (getSeverityBadge severity) = "badge-warning") ∧
  (alertTint severity = "bg-blue-500/20 text-blue-400"
   ↔ className (getSeverityBadge severity) = "badge-info") ∧
  children (getSeverityBadge severity) = [Text severity].
Proof.
  intros _.
  destruct (decide (severity = "critical")) as [->|Hc]; [by vm_compute|].
  destruct (decide (severity = "high")) as [->|Hh]; [by vm_compute|].
  destruct (decide (severity = "medium")) as [->|Hm]; [by vm_compute|].
  destruct (decide (severity = "low")) as [->|Hl]; [by vm_compute|].
  assert (styles !! severity = None) as Hnone.
  { unfold styles. by rewrite !lookup_insert_ne, lookup_singleton_ne by done. }
  unfold getSeverityBadge, lookup_or, alertTint. rewrite Hnone.
  rewrite decide_False by tauto. rewrite decide_False by done.
  by vm_compute.
Qed.

Lemma alert_tint_matches_badge_witness :
  ("urgent" ∉ JsObject.inherited) ∧
  alertTint "urgent" = "bg-blue-500/20 text-blue-400" ∧
  className (getSeverityBadge "urgent") = "badge-info".
Proof.
  assert ("urgent" ∉ JsObject.inherited) as Hown by compute_done.
  split; [exact Hown|]. split; [reflexivity|].
  destruct (alert_tint_matches_badge "urgent" Hown) as (_ & _ & Hblue & _).
  by apply Hblue.
Defined.

End Alerts.

(** ** Search boxes *)

Section SearchBoxes.
Import Js JsString Search.

Lemma startsWith_iff (s q : text) : startsWith s q = true ↔ ∃ post, s = q ++ post.
Proof.
  revert s. induction q as [|a q IH]; intros s.
  - destruct s; (split; [by eexists|done]).
  - destruct s as [|b s]; simpl.
    + split; [done|]. by intros (post & ?).
    + rewrite andb_true_iff, bool_decide_eq_true, IH. split.
      * intros [-> (post & ->)]. by exists post.
      * intros (post & [= -> ->]). split; [done|]. by exists post.
Qed.

Lemma includes_iff (s q : text) : includes s q = true ↔ ∃ pre post, s = pre ++ q ++ post.
Proof.
  induction s as [|b s IH]; cbn [includes]; rewrite orb_true_iff, startsWith_iff.
  - split.
    + intros [(post & H)|?]; [|done]. by exists [], post.
    + intros (pre & post & H). left. symmetry in H.
      apply app_eq_nil in H as [-> H]. by exists post.
  - rewrite IH. split.
    + intros [(post & H)|(pre & post & ->)]; [by exists [], post|].
      by exists (b :: pre), post.
    + intros ([|c pre] & post & H).
      * left. by exists post.
      * right. injection H as -> ->. by exists pre, post.
Qed.

Lemma includes_nil (s : text) : includes s [] = true.
Proof. apply includes_iff. by exists [], s. Qed.

Lemma includes_trans (s q1 q2 : text) :
  includes s q2 = true → includes q2 q1 = true → includes s q1 = true.
Proof.
  rewrite !includes_iff. intros (pre & post & ->) (pre' & post' & ->).
  exists (pre ++ pre'), (post' ++ post). by rewrite <- !app_assoc.
Qed.

Lemma filter_sublist_impl {A : Type} (P Q : A → Prop)
    `{!∀ x, Decision (P x)} `{!∀ x, Decision (Q x)} (l : list A) :
  (∀ x, P x → Q x) → filter P l `sublist_of` filter Q l.
Proof.
  intros Himp. induction l as [|x l IH]; [done|].
  rewrite !filter_cons. repeat case_decide.
  - by constructor.
  - exfalso. auto.
  - by constructor.
  - done.
Qed.

(** X16. The search boxes of the Talents and Personas pages, for any
    lower-casing that maps the empty text to itself: an empty query
    lists every row; every result keeps the input order; and a query
    whose lower case contains the lower case of another finds no row
    the other does not find, so typing on only narrows the list. *)
Theorem search_narrows {A : Type} (toLowerCase : text → text)
    (display_id persona_name branding_tone : A → text) (rows : list A) :
  toLowerCase [] = [] →
  filteredTalents toLowerCase display_id [] rows = rows ∧
  filteredPersonas toLowerCase persona_name branding_tone [] rows = rows ∧
  (∀ q, filteredTalents toLowerCase display_id q rows `sublist_of` rows ∧
        filteredPersonas toLowerCase persona_name branding_tone q rows `sublist_of` rows) ∧
  (∀ q1 q2, includes (toLowerCase q2) (toLowerCase q1) = true →
     filteredTalents toLowerCase display_id q2 rows
       `sublist_of` filteredTalents toLowerCase display_id q1 rows ∧
     filteredPersonas toLowerCase persona_name branding_tone q2 rows
       `sublist_of` filteredPersonas toLowerCase persona_name branding_tone q1 rows).
Proof.
  intros Hnil. unfold filteredTalents, filteredPersonas.
  split; [|split; [|split]].
  - induction rows as [|x rows IH]; [done|].
    rewrite filter_cons, decide_True; [by rewrite IH|]. rewrite Hnil. apply includes_nil.
  - induction rows as [|x rows IH]; [done|].
    rewrite filter_cons, decide_True; [by rewrite IH|].
    rewrite Hnil, includes_nil. done.
  - intros q. split; apply sublist_filter.
  - intros q1 q2 Hq. split; apply filter_sublist_impl; intros x.
    + intros Hx. by eapply includes_trans.
    + rewrite !orb_true_iff. intros [Hx|Hx]; [left|right]; by eapply includes_trans.
Qed.

Lemma search_narrows_witness :
  Samples.asciiLower [] = [] ∧
  filteredTalents Samples.asciiLower id [] [of_string "TAL-001"; of_string "TAL-002"]
    = [of_string "TAL-001"; of_string "TAL-002"] ∧
  filteredTalents Samples.asciiLower id (of_string "tal-002")
                  [of_string "TAL-001"; of_string "TAL-002"]
    = [of_string "TAL-002"].
Proof.
  split; [reflexivity|]. split; [|by vm_compute].
  exact (proj1 (search_narrows Samples.asciiLower id id id
                  [of_string "TAL-001"; of_string "TAL-002"] eq_refl)).
Defined.

End SearchBoxes.

(** ** Labels of enumerated values *)

Section Labels.
Import Js JsString Forms.

Lemma replace_first (a b : N) (s pre post : text) :
  s = pre ++ a :: post → a ∉ pre → replace a b s = pre ++ b :: post.
Proof.
  intros -> Hpre. induction pre as [|u pre IH]; simpl.
  - by rewrite decide_True.
  - rewrite decide_False by (intros ->; apply Hpre; left).
    rewrite IH; [done|]. intros ?. apply Hpre. by right.
Qed.

Lemma first_occurrence (a : N) (s : text) :
  a ∈ s → ∃ pre post, s = pre ++ a :: post ∧ a ∉ pre.
Proof.
  induction s as [|u s IH]; [by intros ?%elem_of_nil|].
  destruct (decide (u = a)) as [->|Hne].
  - intros _. exists [], s. split; [done|]. by intros ?%elem_of_nil.
  - intros [->|Hin]%elem_of_cons; [done|].
    destruct (IH Hin) as (pre & post & -> & Hpre).
    exists (u :: pre), post. split; [done|].
    intros [->|?]%elem_of_cons; done.
Qed.

(** X17. The label of an enumerated value replaces the first
    underscore by a space and nothing else: a value without underscore
    is its own label, and a value with several keeps every underscore
    after the first. The label is as long as the value. *)
Theorem spacedLabel_first_underscore_only (value : text) :
  length (spacedLabel value) = length value ∧
  (underscore ∉ value → spacedLabel value = value) ∧
  (underscore ∈ value →
     ∃ pre post, value = pre ++ underscore :: post ∧ (underscore ∉ pre) ∧
                 spacedLabel value = pre ++ space :: post).
Proof.
  unfold spacedLabel. split; [|split].
  - induction value as [|u v IH]; [done|]. simpl. case_decide; simpl; by rewrite ?IH.
  - induction value as [|u v IH]; [done|]. intros Hn. simpl.
    rewrite decide_False by (intros ->; apply Hn; left).
    rewrite IH; [done|]. intros ?. apply Hn. by right.
  - intros Hin. destruct (first_occurrence _ _ Hin) as (pre & post & Hv & Hpre).
    exists pre, post. split; [done|]. split; [done|]. by apply replace_first.
Qed.

End Labels.

(** ** Dialogs and guards *)

Section PageGuards.
Import Core.

(** X19. The Revoke button follows the status filter of the consent
    vault: under "active" every listed row offers it, and under any
    other status filter no listed row does. *)
Theorem revoke_button_under_filter
    (filterStatus : string) (consents : list ConsentLedger.Consent) (c : ConsentLedger.Consent) :
  c ∈ Consents.filteredConsents filterStatus consents →
  (filterStatus = "active" → Consents.revokeButtonShown c = true) ∧
  (filterStatus ≠ "all" → filterStatus ≠ "active" → Consents.revokeButtonShown c = false).
Proof.
  unfold Consents.filteredConsents, Consents.revokeButtonShown. intros Hin. split.
  - intros ->. rewrite decide_False in Hin by discriminate.
    apply list_elem_of_filter in Hin as [Hs _]. by apply bool_decide_eq_true.
  - intros Hall Hact. rewrite decide_False in Hin by done.
    apply list_elem_of_filter in Hin as [Hs _]. apply bool_decide_eq_false. congruence.
Qed.

Lemma revoke_button_under_filter_witness :
  Samples.lapsed_consent ∈ Consents.filteredConsents "active" [Samples.lapsed_consent] ∧
  Consents.revokeButtonShown Samples.lapsed_consent = true.
Proof.
  assert (Samples.lapsed_consent ∈ Consents.filteredConsents "active" [Samples.lapsed_consent])
    as Hin by (vm_compute; left).
  split; [exact Hin|].
  exact (proj1 (revoke_button_under_filter "active" [Samples.lapsed_consent]
                  Samples.lapsed_consent Hin) eq_refl).
Defined.

End PageGuards.
